(** * A shallow embedding of [list_cursors] (src/src/lib.rs)

    The doubly-linked list is modelled with an explicit heap of nodes: a
    [NonNull<Node<T>>] is a [ptr], the allocator state is a finite map from
    pointers to nodes plus the next free address, and every method runs in a
    small state/error monad over that heap.  Dereferencing a pointer that is not
    allocated (a use after free, or the second release of a node) is the fault
    [UseAfterFree]; the debug-build panic on [usize] underflow is [Overflow];
    [unreachable!()] is [Unreachable]. *)

From Stdlib Require Import Lia.
From stdpp Require Import base gmap list.

Definition ptr := positive.

Module Node.
(** [struct Node<T> { next, prev, element }] *)
Record t (T : Type) := mk { next : option ptr; prev : option ptr; element : T }.
Arguments mk {T} _ _ _.
Arguments next {T} _.
Arguments prev {T} _.
Arguments element {T} _.
(** [Node::new] *)
Definition new {T} (element : T) : t T := mk None None element.
End Node.

(** The allocator: live nodes and the address the next [Box::new] returns. *)
Record heap (T : Type) := Heap { cells : gmap ptr (Node.t T); fresh : ptr }.
Arguments Heap {T} _ _.
Arguments cells {T} _.
Arguments fresh {T} _.

Inductive fault := UseAfterFree | Overflow | Unreachable.

Definition M (T A : Type) := heap T -> fault + (A * heap T).

Section Monad.
Context {T : Type}.

Definition ret {A} (a : A) : M T A := fun h => inr (a, h).
Definition bind {A B} (m : M T A) (k : A -> M T B) : M T B :=
  fun h => match m h with inl e => inl e | inr (a, h') => k a h' end.
Definition throw {A} (e : fault) : M T A := fun _ => inl e.

(** [*p] for a [NonNull<Node<T>>] *)
Definition deref (p : ptr) : M T (Node.t T) :=
  fun h => match cells h !! p with
           | Some n => inr (n, h)
           | None => inl UseAfterFree
           end.

(** [*p = n] *)
Definition store (p : ptr) (n : Node.t T) : M T unit :=
  fun h => match cells h !! p with
           | Some _ => inr (tt, Heap (<[p := n]> (cells h)) (fresh h))
           | None => inl UseAfterFree
           end.

(** [Box::into_raw_non_null(box n)] *)
Definition alloc (n : Node.t T) : M T ptr :=
  fun h => inr (fresh h, Heap (<[fresh h := n]> (cells h)) (Pos.succ (fresh h))).

(** Dropping a [Box::from_raw(p)]: the node's storage is released. *)
Definition free (p : ptr) : M T (Node.t T) :=
  fun h => match cells h !! p with
           | Some n => inr (n, Heap (delete p (cells h)) (fresh h))
           | None => inl UseAfterFree
           end.
End Monad.

Notation "'let!' x ':=' m 'in' k" := (bind m (fun x => k))
  (at level 200, x name, m at level 100, k at level 200).

Section Access.
Context {T : Type}.

Definition read_next (p : ptr) : M T (option ptr) :=
  let! n := deref p in ret (Node.next n).
Definition read_prev (p : ptr) : M T (option ptr) :=
  let! n := deref p in ret (Node.prev n).
(** [p.as_mut().next = v] *)
Definition set_next (p : ptr) (v : option ptr) : M T unit :=
  let! n := deref p in store p (Node.mk v (Node.prev n) (Node.element n)).
(** [p.as_mut().prev = v] *)
Definition set_prev (p : ptr) (v : option ptr) : M T unit :=
  let! n := deref p in store p (Node.mk (Node.next n) v (Node.element n)).

(** [a - b] on [usize]: a debug build panics on underflow. *)
Definition sub_usize (a b : nat) : M T nat :=
  if b <=? a then ret (a - b) else throw Overflow.
End Access.

(** [struct LinkedList<T> { head, tail, len, marker }] *)
Record LinkedList := mkList { head : option ptr; tail : option ptr; len : nat }.

Definition set_head (l : LinkedList) (v : option ptr) := mkList v (tail l) (len l).
Definition set_tail (l : LinkedList) (v : option ptr) := mkList (head l) v (len l).
Definition set_len (l : LinkedList) (n : nat) := mkList (head l) (tail l) n.

(** [LinkedList::new] *)
Definition new : LinkedList := mkList None None 0.

(** [Cursor<'list, T>]: a read-only position over a list. *)
Module Cursor.
Record t := mk { current : option ptr; list : LinkedList }.

Section Ops.
Context {T : Type}.

Definition next (c : t) : M T (option ptr) :=
  match current c with
  | None => ret (head (list c))
  | Some node => read_next node
  end.
Definition prev (c : t) : M T (option ptr) :=
  match current c with
  | None => ret (tail (list c))
  | Some node => read_prev node
  end.
Definition move_next (c : t) : M T t :=
  let! n := next c in ret (mk n (list c)).
Definition move_prev (c : t) : M T t :=
  let! p := prev c in ret (mk p (list c)).

Definition element_at (o : option ptr) : M T (option T) :=
  match o with
  | None => ret None
  | Some node => let! n := deref node in ret (Some (Node.element n))
  end.
(** [Cursor::current] *)
Definition current_elem (c : t) : M T (option T) := element_at (current c).
Definition peek (c : t) : M T (option T) := let! n := next c in element_at n.
Definition peek_before (c : t) : M T (option T) := let! p := prev c in element_at p.
End Ops.
End Cursor.

(** [LinkedList::cursor] *)
Definition cursor (l : LinkedList) : Cursor.t := Cursor.mk None l.

(** [CursorMut<'list, T>]: the borrowed list travels with the cursor and is
    handed back with it; [current_len] is the tracked offset. *)
Module CursorMut.
Record t := mk { current : option ptr; list : LinkedList; current_len : nat }.

Definition set_list (c : t) (l : LinkedList) := mk (current c) l (current_len c).
Definition set_current (c : t) (p : option ptr) := mk p (list c) (current_len c).

(** [inc_len]: [current_len += 1; current_len %= list.len + 1] *)
Definition inc_len (c : t) : t :=
  mk (current c) (list c) ((current_len c + 1) mod (len (list c) + 1)).
(** [dec_len]: [current_len += list.len; current_len %= list.len + 1] *)
Definition dec_len (c : t) : t :=
  mk (current c) (list c) ((current_len c + len (list c)) mod (len (list c) + 1)).

Section Ops.
Context {T : Type}.

Definition next (c : t) : M T (option ptr) :=
  match current c with
  | None => ret (head (list c))
  | Some node => read_next node
  end.
Definition prev (c : t) : M T (option ptr) :=
  match current c with
  | None => ret (tail (list c))
  | Some node => read_prev node
  end.

Definition move_next (c : t) : M T t :=
  let c := inc_len c in
  let! n := next c in ret (set_current c n).
Definition move_prev (c : t) : M T t :=
  let c := dec_len c in
  let! p := prev c in ret (set_current c p).

(** [CursorMut::current], [peek], [peek_before] (read back by value) *)
Definition current_elem (c : t) : M T (option T) := Cursor.element_at (current c).
Definition peek (c : t) : M T (option T) := let! n := next c in Cursor.element_at n.
Definition peek_before (c : t) : M T (option T) := let! p := prev c in Cursor.element_at p.

(** [as_cursor] *)
Definition as_cursor (c : t) : Cursor.t := Cursor.mk (current c) (list c).

(** [insert]: a new node after the cursor. *)
Definition insert (item : T) (c : t) : M T t :=
  let! nx := next c in
  let! np := alloc (Node.mk nx (current c) item) in
  let! nx2 := next c in
  let! l1 := match nx2 with
             | None => ret (set_tail (list c) (Some np))
             | Some nxt => let! _ := set_prev nxt (Some np) in ret (list c)
             end in
  let! l2 := match current c with
             | None => ret (set_head l1 (Some np))
             | Some pv => let! _ := set_next pv (Some np) in ret l1
             end in
  ret (set_list c (set_len l2 (len l2 + 1))).

(** [insert_before]: a new node before the cursor. *)
Definition insert_before (item : T) (c : t) : M T t :=
  let! pv := prev c in
  let! np := alloc (Node.mk (current c) pv item) in
  let! pv2 := prev c in
  let! l1 := match pv2 with
             | None => ret (set_head (list c) (Some np))
             | Some p => let! _ := set_next p (Some np) in ret (list c)
             end in
  let! l2 := match current c with
             | None => ret (set_tail l1 (Some np))
             | Some nx => let! _ := set_prev nx (Some np) in ret l1
             end in
  ret (inc_len (set_list c (set_len l2 (len l2 + 1)))).

(** [pop]: remove the node after the cursor. *)
Definition pop (c : t) : M T (t * option T) :=
  let! nx := next c in
  match nx with
  | None => ret (c, None)
  | Some node =>
      let! l' := sub_usize (len (list c)) 1 in
      let c := mk (current c) (set_len (list c) l') (current_len c mod (l' + 1)) in
      let! n1 := read_next node in
      let! l1 := match current c with
                 | None => ret (set_head (list c) n1)
                 | Some pv => let! _ := set_next pv n1 in ret (list c)
                 end in
      let! n2 := read_next node in
      let! l2 := match n2 with
                 | None => ret (set_tail l1 (current c))
                 | Some nxt => let! _ := set_prev nxt (current c) in ret l1
                 end in
      let! n := free node in
      ret (set_list c l2, Some (Node.element n))
  end.

(** [pop_prev]: remove the node before the cursor. *)
Definition pop_prev (c : t) : M T (t * option T) :=
  let! pv := prev c in
  match pv with
  | None => ret (c, None)
  | Some node =>
      let! l' := sub_usize (len (list c)) 1 in
      let c := dec_len (set_list c (set_len (list c) l')) in
      let! p1 := read_prev node in
      let! l1 := match p1 with
                 | None => ret (set_head (list c) (current c))
                 | Some p => let! _ := set_next p (current c) in ret (list c)
                 end in
      let! l2 := match current c with
                 | None => let! p2 := read_prev node in ret (set_tail l1 p2)
                 | Some nxt =>
                     let! p2 := read_prev node in
                     let! _ := set_prev nxt p2 in ret l1
                 end in
      let! n := free node in
      ret (set_list c l2, Some (Node.element n))
  end.

(** [impl Drop for LinkedList]: [while c.pop().is_some() {}] on a fresh
    cursor.  Every iteration that continues releases one allocated node,
    so [S (size (cells h))] rounds always suffice to reach the exit. *)
Fixpoint pop_all (fuel : nat) (c : t) : M T unit :=
  match fuel with
  | O => ret tt
  | S f =>
      let! r := pop c in
      match r with
      | (c', Some _) => pop_all f c'
      | (_, None) => ret tt
      end
  end.
Definition drop (l : LinkedList) : M T unit :=
  fun h => pop_all (S (size (cells h))) (mk None l 0) h.

(** The statements of [insert_list] before its scope ends. *)
Definition insert_list_splice (other : LinkedList) (c : t) : M T t :=
  match head other, tail other with
  | Some hd, Some tl =>
      let! _ := set_prev hd (current c) in
      let! nx := next c in
      let! _ := set_next tl nx in
      let! nx2 := next c in
      let! l1 := match nx2 with
                 | None => ret (set_tail (list c) (tail other))
                 | Some nxt => let! _ := set_prev nxt (tail other) in ret (list c)
                 end in
      let! l2 := match current c with
                 | None => ret (set_head l1 (head other))
                 | Some pv => let! _ := set_next pv (head other) in ret l1
                 end in
      ret (set_list c (set_len l2 (len l2 + len other)))
  (* splicing in an empty list should be a no-op *)
  | None, None => ret c
  | _, _ => throw Unreachable
  end.

(** [insert_list(&mut self, list: LinkedList<T>)]: [list] is taken by
    value and is not forgotten, so it is dropped when the function
    returns (on the early [return] as well as at the end). *)
Definition insert_list (other : LinkedList) (c : t) : M T t :=
  let! c' := insert_list_splice other c in
  let! _ := drop other in
  ret c'.

(** The statements of [insert_list_before] before its scope ends. *)
Definition insert_list_before_splice (other : LinkedList) (c : t) : M T t :=
  match head other, tail other with
  | Some hd, Some tl =>
      let! pv := prev c in
      let! _ := set_prev hd pv in
      let! _ := set_next tl (current c) in
      let! pv2 := prev c in
      let! l1 := match pv2 with
                 | None => ret (set_head (list c) (head other))
                 | Some p => let! _ := set_next p (head other) in ret (list c)
                 end in
      let! l2 := match current c with
                 | None => ret (set_tail l1 (tail other))
                 | Some nxt => let! _ := set_prev nxt (tail other) in ret l1
                 end in
      let l3 := set_len l2 (len l2 + len other) in
      ret (mk (current c) l3
              (if current_len c =? 0 then current_len c
               else current_len c + len other))
  | None, None => ret c
  | _, _ => throw Unreachable
  end.

(** [insert_list_before]: [list] is dropped on return, as in [insert_list]. *)
Definition insert_list_before (other : LinkedList) (c : t) : M T t :=
  let! c' := insert_list_before_splice other c in
  let! _ := drop other in
  ret c'.

(** [split_at(self, current, split_len)]; the result is the borrowed
    list as the call leaves it, paired with the returned list. *)
Definition split_at (c : t) (cur : ptr) (split_len : nat)
    : M T (LinkedList * LinkedList) :=
  let total_len := len (list c) in
  let! nx := read_next cur in
  match nx with
  | Some next =>
      let new_head := Some next in
      let new_tail := tail (list c) in
      let! new_len := sub_usize total_len split_len in
      let old_head := head (list c) in
      let old_tail := Some cur in
      let! old_len := sub_usize total_len new_len in
      let! _ := set_next cur None in
      let! _ := set_prev next None in
      ret (mkList old_head old_tail old_len, mkList new_head new_tail new_len)
  | None => ret (list c, new)
  end.

(** [split]: [replace(self.list, LinkedList::new())] at the ghost. *)
Definition split (c : t) : M T (LinkedList * LinkedList) :=
  match current c with
  | None => ret (new, list c)
  | Some cur => split_at c cur (current_len c)
  end.

(** [split_before] *)
Definition split_before (c : t) : M T (LinkedList * LinkedList) :=
  match current c with
  | None => ret (new, list c)
  | Some cur =>
      let! pv := read_prev cur in
      match pv with
      | None => ret (new, list c)
      | Some p =>
          let! split_len := sub_usize (current_len c) 1 in
          split_at c p split_len
      end
  end.
End Ops.
End CursorMut.

(** [LinkedList::cursor_mut] *)
Definition cursor_mut (l : LinkedList) : CursorMut.t := CursorMut.mk None l 0.

Section Build.
Context {T : Type}.

Fixpoint insert_all (xs : list T) (c : CursorMut.t) : M T CursorMut.t :=
  match xs with
  | [] => ret c
  | x :: xs' => let! c' := CursorMut.insert_before x c in insert_all xs' c'
  end.

(** [FromIterator::from_iter]: [cursor.insert_before(el)] for each element
    on a cursor of a new list, which stays at the ghost position. *)
Definition from_iter (xs : list T) : M T LinkedList :=
  let! c := insert_all xs (cursor_mut new) in ret (CursorMut.list c).
End Build.

(** An empty allocator. *)
Definition empty_heap {T} : heap T := Heap ∅ 1%positive.

Section Traverse.
Context {T : Type}.

(** [n] rounds of [move_next] followed by [current], on a read-only cursor. *)
Fixpoint forward (n : nat) (c : Cursor.t) : M T (list (option T)) :=
  match n with
  | O => ret []
  | S n' =>
      let! c' := Cursor.move_next c in
      let! x := Cursor.current_elem c' in
      let! r := forward n' c' in
      ret (x :: r)
  end.

(** [n] rounds of [move_prev] followed by [current]. *)
Fixpoint backward (n : nat) (c : Cursor.t) : M T (list (option T)) :=
  match n with
  | O => ret []
  | S n' =>
      let! c' := Cursor.move_prev c in
      let! x := Cursor.current_elem c' in
      let! r := backward n' c' in
      ret (x :: r)
  end.

(** The loop of [impl Debug for LinkedList]: [while let Some(e) =
    c.current() { t.entry(&e); c.move_next(); }].  Each round visits one
    more node, so [S (size (cells h))] rounds reach the ghost on an acyclic
    chain. *)
Fixpoint fmt_loop (fuel : nat) (c : Cursor.t) : M T (list T) :=
  match fuel with
  | O => ret []
  | S f =>
      let! e := Cursor.current_elem c in
      match e with
      | None => ret []
      | Some x => let! c' := Cursor.move_next c in
                  let! r := fmt_loop f c' in ret (x :: r)
      end
  end.
(** [fmt]: the elements in forward order, as the tests print them. *)
Definition fmt (l : LinkedList) : M T (list T) :=
  fun h => (let! c := Cursor.move_next (cursor l) in fmt_loop (S (size (cells h))) c) h.

(** Running a computation from an empty allocator. *)
Definition run_fresh {A} (m : M T A) : option A :=
  match m empty_heap with inr (a, _) => Some a | inl _ => None end.

(** [n] calls of [CursorMut::move_next]. *)
Fixpoint move_next_n (n : nat) (c : CursorMut.t) : M T CursorMut.t :=
  match n with
  | O => ret c
  | S n' => let! c' := CursorMut.move_next c in move_next_n n' c'
  end.

(** [n] calls of [CursorMut::pop] on the same cursor, collecting the results. *)
Fixpoint pop_n (n : nat) (c : CursorMut.t) : M T (list (option T) * CursorMut.t) :=
  match n with
  | O => ret ([], c)
  | S n' =>
      let! r := CursorMut.pop c in
      let! rs := pop_n n' (fst r) in
      ret (snd r :: fst rs, snd rs)
  end.
End Traverse.

(** Cursor move sequences. *)
Inductive move := Next | Prev.

Section Moves.
Context {T : Type}.
Fixpoint run_moves (ms : list move) (c : CursorMut.t) : M T CursorMut.t :=
  match ms with
  | [] => ret c
  | Next :: ms' => let! c' := CursorMut.move_next c in run_moves ms' c'
  | Prev :: ms' => let! c' := CursorMut.move_prev c in run_moves ms' c'
  end.
End Moves.

(** The single-element operations of [CursorMut]: a move, [insert],
    [insert_before], [pop] and [pop_prev] (the popped element dropped). *)
Inductive op (T : Type) :=
| OMove (m : move)
| OInsert (x : T)
| OInsertBefore (x : T)
| OPop
| OPopPrev.
Arguments OMove {T} _.
Arguments OInsert {T} _.
Arguments OInsertBefore {T} _.
Arguments OPop {T}.
Arguments OPopPrev {T}.

Definition run_op {T} (o : op T) (c : CursorMut.t) : M T CursorMut.t :=
  match o with
  | OMove m => run_moves [m] c
  | OInsert x => CursorMut.insert x c
  | OInsertBefore x => CursorMut.insert_before x c
  | OPop => let! r := CursorMut.pop c in ret (fst r)
  | OPopPrev => let! r := CursorMut.pop_prev c in ret (fst r)
  end.

(** The operations whose offset update does not depend on the cursor being
    off the ghost position. *)
Definition ghost_safe {T} (o : op T) : bool :=
  match o with OInsertBefore _ | OPopPrev => false | _ => true end.

(** * Scenarios *)

(** A new list, two [insert_before] on its ghost cursor, [move_next], [split]. *)
Definition scenario_split_after_inserts : M nat (LinkedList * LinkedList) :=
  let! c := CursorMut.insert_before 0 (cursor_mut new) in
  let! c := CursorMut.insert_before 1 c in
  let! c := CursorMut.move_next c in
  CursorMut.split c.

(** [[0]] with the cursor on [0] receives [[5]] through [insert_list]. *)
Definition scenario_insert_list : M nat CursorMut.t :=
  let! l := from_iter [0] in
  let! o := from_iter [5] in
  let! c := CursorMut.move_next (cursor_mut l) in
  CursorMut.insert_list o c.

(** [[0; 1]] with the cursor at the ghost receives [[5]] through [insert_list]. *)
Definition scenario_insert_list_ghost : M nat CursorMut.t :=
  let! l := from_iter [0; 1] in
  let! o := from_iter [5] in
  CursorMut.insert_list o (cursor_mut l).

(** [[0; 1]] split after [0], then the returned list spliced back with
    [insert_list] by a cursor on [0], the cut point. *)
Definition scenario_split_rejoin : M nat (list nat * list nat * CursorMut.t) :=
  let! l := from_iter [0; 1] in
  let! c := CursorMut.move_next (cursor_mut l) in
  let! r := CursorMut.split c in
  let! kept := fmt (fst r) in
  let! returned := fmt (snd r) in
  let! c2 := CursorMut.move_next (cursor_mut (fst r)) in
  let! c3 := CursorMut.insert_list (snd r) c2 in
  ret (kept, returned, c3).

(** * Representation of a list in the heap *)
Section Repr.
Context {T : Type}.
Implicit Types (m : gmap ptr (Node.t T)) (ps : list ptr) (xs : list T).

(** The pointer that follows a segment: its first node, or [nx]. *)
Definition link_after (ps : list ptr) (nx : option ptr) : option ptr :=
  match ps with [] => nx | q :: _ => Some q end.
(** The pointer that precedes a segment's end: its last node, or [pr]. *)
Definition link_before (ps : list ptr) (pr : option ptr) : option ptr :=
  match last ps with None => pr | Some q => Some q end.

(** [dseg m pr ps xs nx]: the nodes [ps] hold [xs] and are linked in both
    directions, the first one's [prev] being [pr] and the last one's [next]
    being [nx]. *)
Fixpoint dseg m (pr : option ptr) ps xs (nx : option ptr) : Prop :=
  match ps, xs with
  | [], [] => True
  | p :: ps', x :: xs' =>
      m !! p = Some (Node.mk (link_after ps' nx) pr x) /\ dseg m (Some p) ps' xs' nx
  | _, _ => False
  end.

(** [l] is a well-formed list whose nodes are [ps], holding [xs]. *)
Definition list_repr (h : heap T) (l : LinkedList) ps xs : Prop :=
  NoDup ps /\ dseg (cells h) None ps xs None /\
  head l = ps !! 0 /\ tail l = last ps /\ len l = length ps.

(** No allocated node sits at or beyond the allocator's next address. *)
Definition heap_ok (h : heap T) : Prop :=
  forall p, (fresh h <= p)%positive -> cells h !! p = None.
End Repr.

(** Cursor positions: [None] is the ghost, [Some i] the node of index [i]. *)
Definition at_pos (ps : list ptr) (pos : option nat) : option ptr :=
  match pos with None => None | Some i => ps !! i end.
Definition pos_ok (n : nat) (pos : option nat) : Prop :=
  match pos with None => True | Some i => i < n end.
Definition pos_next (n : nat) (pos : option nat) : option nat :=
  match pos with
  | None => match n with O => None | _ => Some 0 end
  | Some i => if S i <? n then Some (S i) else None
  end.
Definition pos_prev (n : nat) (pos : option nat) : option nat :=
  match pos with
  | None => match n with O => None | S k => Some k end
  | Some O => None
  | Some (S j) => Some j
  end.
(** The number of elements at-and-before a position (0 at the ghost). *)
Definition upto (pos : option nat) : nat :=
  match pos with None => 0 | Some i => S i end.

Definition cursor_repr {T} (h : heap T) (c : CursorMut.t) ps xs pos : Prop :=
  list_repr h (CursorMut.list c) ps xs /\ pos_ok (length ps) pos /\
  CursorMut.current c = at_pos ps pos.

(** The index a node inserted before the cursor gets: the cursor's own
    index, or the end of the list at the ghost. *)
Definition before_index (n : nat) (pos : option nat) : nat :=
  match pos with None => n | Some i => i end.
(** The index a node inserted after the cursor gets. *)
Definition after_index (pos : option nat) : nat := upto pos.

(** A three-element list [0,1,2] in the heap, laid out as [from_iter] lays it. *)
Definition demo_heap : heap nat :=
  Heap (list_to_map [(1%positive, Node.mk (Some 2%positive) None 0);
                     (2%positive, Node.mk (Some 3%positive) (Some 1%positive) 1);
                     (3%positive, Node.mk None (Some 2%positive) 2)]) 4%positive.
Definition demo_list : LinkedList := mkList (Some 1%positive) (Some 3%positive) 3.
Definition demo_ptrs : list ptr := [1%positive; 2%positive; 3%positive].

(** The cursor on the head of [0,1,2], as one [move_next] leaves it. *)
Definition demo_at_head : CursorMut.t := CursorMut.mk (Some 1%positive) demo_list 1.

(** * Lemmas on the heap representation *)
Section ReprLemmas.
Context {T : Type}.
Implicit Types (m : gmap ptr (Node.t T)) (ps : list ptr) (xs : list T).

Lemma dseg_length m pr ps xs nx : dseg m pr ps xs nx -> length ps = length xs.
Proof.
  revert pr xs; induction ps as [|p ps IH]; intros pr [|x xs]; simpl; try tauto.
  intros [_ H]. f_equal. eapply IH; eauto.
Qed.

Lemma dseg_lookup m pr ps xs nx i p :
  dseg m pr ps xs nx -> ps !! i = Some p ->
  exists x, xs !! i = Some x /\
    m !! p = Some (Node.mk (link_after (drop (S i) ps) nx)
                           (match i with O => pr | S j => ps !! j end) x).
Proof.
  revert pr xs i; induction ps as [|q ps IH]; intros pr [|x xs] i; simpl; try done.
  intros [Hq Hs] Hi. destruct i as [|j]; simpl in *.
  - injection Hi as ->. eauto.
  - destruct (IH _ _ _ Hs Hi) as (y & Hy & Hm). exists y. split; [done|].
    rewrite Hm. destruct j; done.
Qed.

Lemma dseg_in m pr ps xs nx p : dseg m pr ps xs nx -> p ∈ ps -> is_Some (m !! p).
Proof.
  intros Hs Hp. apply list_elem_of_lookup in Hp as [i Hi].
  destruct (dseg_lookup _ _ _ _ _ _ _ Hs Hi) as (x & _ & Hm). eauto.
Qed.

Lemma dseg_insert_notin m pr ps xs nx p n :
  p ∉ ps -> dseg m pr ps xs nx -> dseg (<[p := n]> m) pr ps xs nx.
Proof.
  revert pr xs; induction ps as [|q ps IH]; intros pr [|x xs]; simpl; try done.
  intros Hp [Hq Hs]. rewrite not_elem_of_cons in Hp. destruct Hp as [Hpq Hp].
  split; [|by apply IH]. rewrite lookup_insert_ne; [done|congruence].
Qed.

Lemma dseg_delete_notin m pr ps xs nx p :
  p ∉ ps -> dseg m pr ps xs nx -> dseg (delete p m) pr ps xs nx.
Proof.
  revert pr xs; induction ps as [|q ps IH]; intros pr [|x xs]; simpl; try done.
  intros Hp [Hq Hs]. rewrite not_elem_of_cons in Hp. destruct Hp as [Hpq Hp].
  split; [|by apply IH]. rewrite lookup_delete_ne; [done|congruence].
Qed.

Lemma link_after_app ps1 ps2 nx :
  link_after (ps1 ++ ps2) nx = link_after ps1 (link_after ps2 nx).
Proof. by destruct ps1. Qed.

Lemma link_before_cons p ps pr : link_before (p :: ps) pr = link_before ps (Some p).
Proof.
  unfold link_before. destruct ps as [|q ps]; [done|].
  change (last (p :: q :: ps)) with (last (q :: ps)).
  destruct (last (q :: ps)) eqn:E; [done|]. apply last_None in E. done.
Qed.

Lemma dseg_app m pr ps1 ps2 xs1 xs2 nx :
  length ps1 = length xs1 ->
  dseg m pr (ps1 ++ ps2) (xs1 ++ xs2) nx <->
  dseg m pr ps1 xs1 (link_after ps2 nx) /\ dseg m (link_before ps1 pr) ps2 xs2 nx.
Proof.
  revert pr xs1; induction ps1 as [|p ps1 IH]; intros pr [|x xs1] Hlen;
    simpl in *; try done.
  - tauto.
  - rewrite link_before_cons, link_after_app.
    injection Hlen as Hlen. rewrite (IH (Some p) xs1 Hlen). tauto.
Qed.

(** Rewriting the [next] link of a segment's last node. *)
Lemma dseg_set_last_next m pr ps xs nx nx' p n :
  dseg m pr ps xs nx -> NoDup ps -> last ps = Some p -> m !! p = Some n ->
  dseg (<[p := Node.mk nx' (Node.prev n) (Node.element n)]> m) pr ps xs nx'.
Proof.
  revert pr xs; induction ps as [|q ps IH]; intros pr [|x xs]; simpl; try done.
  intros [Hq Hs] Hnd Hlast Hp. apply NoDup_cons in Hnd as [Hqn Hnd].
  destruct ps as [|r ps'].
  - injection Hlast as ->. rewrite Hq in Hp. injection Hp as <-.
    destruct xs; [|done]. simpl. by rewrite lookup_insert_eq.
  - assert (p ∈ r :: ps') as Hin.
    { apply last_Some_elem_of. done. }
    split.
    + rewrite lookup_insert_ne; [done|]. intros ->. done.
    + by apply IH.
Qed.

(** Rewriting the [prev] link of a segment's first node. *)
Lemma dseg_set_first_prev m pr pr' p ps xs nx n :
  dseg m pr (p :: ps) xs nx -> p ∉ ps -> m !! p = Some n ->
  dseg (<[p := Node.mk (Node.next n) pr' (Node.element n)]> m) pr' (p :: ps) xs nx.
Proof.
  destruct xs as [|x xs]; simpl; [done|].
  intros [Hq Hs] Hp Hn. rewrite Hq in Hn. injection Hn as <-. simpl.
  split; [by rewrite lookup_insert_eq|]. by apply dseg_insert_notin.
Qed.

Lemma heap_ok_fresh (h : heap T) pr ps xs nx :
  heap_ok h -> dseg (cells h) pr ps xs nx -> fresh h ∉ ps.
Proof.
  intros Hok Hs Hin. destruct (dseg_in _ _ _ _ _ _ Hs Hin) as [n Hn].
  rewrite Hok in Hn; [done|lia].
Qed.
End ReprLemmas.

(** * Evaluating the heap primitives *)
Section Prims.
Context {T : Type}.
Implicit Types (h : heap T) (n : Node.t T).

Lemma bind_ok {A B} (m : M T A) (k : A -> M T B) h a h' :
  m h = inr (a, h') -> bind m k h = k a h'.
Proof. intros E. unfold bind. by rewrite E. Qed.

Lemma bind_err {A B} (m : M T A) (k : A -> M T B) h e :
  m h = inl e -> bind m k h = inl e.
Proof. intros E. unfold bind. by rewrite E. Qed.

Lemma deref_ok h p n : cells h !! p = Some n -> deref p h = inr (n, h).
Proof. intros E. unfold deref. by rewrite E. Qed.

Lemma read_next_ok h p n :
  cells h !! p = Some n -> read_next p h = inr (Node.next n, h).
Proof. intros E. unfold read_next. by rewrite (bind_ok _ _ _ _ _ (deref_ok _ _ _ E)). Qed.

Lemma read_prev_ok h p n :
  cells h !! p = Some n -> read_prev p h = inr (Node.prev n, h).
Proof. intros E. unfold read_prev. by rewrite (bind_ok _ _ _ _ _ (deref_ok _ _ _ E)). Qed.

Lemma set_next_ok h p n v :
  cells h !! p = Some n ->
  set_next p v h =
    inr (tt, Heap (<[p := Node.mk v (Node.prev n) (Node.element n)]> (cells h)) (fresh h)).
Proof.
  intros E. unfold set_next. rewrite (bind_ok _ _ _ _ _ (deref_ok _ _ _ E)).
  unfold store. by rewrite E.
Qed.

Lemma set_prev_ok h p n v :
  cells h !! p = Some n ->
  set_prev p v h =
    inr (tt, Heap (<[p := Node.mk (Node.next n) v (Node.element n)]> (cells h)) (fresh h)).
Proof.
  intros E. unfold set_prev. rewrite (bind_ok _ _ _ _ _ (deref_ok _ _ _ E)).
  unfold store. by rewrite E.
Qed.

Lemma free_ok h p n :
  cells h !! p = Some n -> free p h = inr (n, Heap (delete p (cells h)) (fresh h)).
Proof. intros E. unfold free. by rewrite E. Qed.
End Prims.

(** * Positions *)
Lemma link_after_drop (ps : list ptr) k : link_after (drop k ps) None = ps !! k.
Proof.
  revert k; induction ps as [|p ps IH]; intros [|k]; simpl; auto.
Qed.

Lemma at_pos_next (ps : list ptr) pos :
  at_pos ps (pos_next (length ps) pos) =
  match pos with None => ps !! 0 | Some i => ps !! S i end.
Proof.
  destruct pos as [i|]; simpl.
  - destruct (S i <? length ps) eqn:E; simpl; [done|].
    apply Nat.ltb_ge in E. symmetry. by apply lookup_ge_None_2.
  - by destruct ps.
Qed.

Lemma at_pos_prev (ps : list ptr) pos :
  at_pos ps (pos_prev (length ps) pos) =
  match pos with None => last ps | Some O => None | Some (S j) => ps !! j end.
Proof.
  destruct pos as [[|j]|]; simpl; [done|done|].
  destruct ps as [|p ps]; [done|]. rewrite last_lookup. done.
Qed.

Lemma pos_ok_next n pos : pos_ok n (pos_next n pos).
Proof.
  destruct pos as [i|]; simpl.
  - destruct (S i <? n) eqn:E; simpl; [apply Nat.ltb_lt in E; lia|done].
  - destruct n; simpl; [done|lia].
Qed.

Lemma pos_ok_prev n pos : pos_ok n pos -> pos_ok n (pos_prev n pos).
Proof. destruct pos as [[|j]|]; simpl; try done; try lia. destruct n; simpl; lia. Qed.

(** The offset arithmetic of [inc_len] and [dec_len] follows the position. *)
Lemma upto_next n pos : pos_ok n pos -> (upto pos + 1) mod (n + 1) = upto (pos_next n pos).
Proof.
  destruct pos as [i|]; simpl; intros Hi.
  - destruct (S i <? n) eqn:E; simpl.
    + apply Nat.ltb_lt in E. rewrite Nat.mod_small; lia.
    + apply Nat.ltb_ge in E. replace (S (i + 1)) with (n + 1) by lia.
      apply Nat.Div0.mod_same.
  - destruct n; [done|]. cbn [upto pos_next]. rewrite Nat.mod_small; lia.
Qed.

Lemma upto_prev n pos : pos_ok n pos -> (upto pos + n) mod (n + 1) = upto (pos_prev n pos).
Proof.
  destruct pos as [i|]; simpl; intros Hi.
  - symmetry. apply (Nat.mod_unique _ _ 1); [|destruct i; simpl; lia].
    destruct i; simpl; lia.
  - destruct n; [done|]. cbn [upto pos_prev]. rewrite Nat.mod_small; lia.
Qed.

(** * Cursor movement over a well-formed list *)
Section MoveLemmas.
Context {T : Type}.
Implicit Types (h : heap T) (ps : list ptr) (xs : list T).

Lemma step_next h l cur ps xs pos :
  list_repr h l ps xs -> pos_ok (length ps) pos -> cur = at_pos ps pos ->
  (match cur with None => ret (head l) | Some node => read_next node end) h
    = inr (at_pos ps (pos_next (length ps) pos), h).
Proof.
  intros (Hnd & Hs & Hhd & Htl & Hlen) Hpos ->. rewrite at_pos_next.
  destruct pos as [i|]; simpl in *.
  - destruct (lookup_lt_is_Some_2 ps i Hpos) as [p Hp]. rewrite Hp.
    destruct (dseg_lookup _ _ _ _ _ _ _ Hs Hp) as (x & _ & Hm).
    rewrite (read_next_ok _ _ _ Hm). simpl. by rewrite link_after_drop.
  - unfold ret. by rewrite Hhd.
Qed.

Lemma step_prev h l cur ps xs pos :
  list_repr h l ps xs -> pos_ok (length ps) pos -> cur = at_pos ps pos ->
  (match cur with None => ret (tail l) | Some node => read_prev node end) h
    = inr (at_pos ps (pos_prev (length ps) pos), h).
Proof.
  intros (Hnd & Hs & Hhd & Htl & Hlen) Hpos ->. rewrite at_pos_prev.
  destruct pos as [i|]; simpl in *.
  - destruct (lookup_lt_is_Some_2 ps i Hpos) as [p Hp]. rewrite Hp.
    destruct (dseg_lookup _ _ _ _ _ _ _ Hs Hp) as (x & _ & Hm).
    rewrite (read_prev_ok _ _ _ Hm). simpl. by destruct i.
  - unfold ret. by rewrite Htl.
Qed.

Lemma cm_next_at h c ps xs pos :
  cursor_repr h c ps xs pos ->
  CursorMut.next c h = inr (at_pos ps (pos_next (length ps) pos), h).
Proof. intros (Hl & Hp & Hc). by apply (step_next _ _ _ _ xs). Qed.

Lemma cm_prev_at h c ps xs pos :
  cursor_repr h c ps xs pos ->
  CursorMut.prev c h = inr (at_pos ps (pos_prev (length ps) pos), h).
Proof. intros (Hl & Hp & Hc). by apply (step_prev _ _ _ _ xs). Qed.

Lemma move_next_repr h c ps xs pos :
  cursor_repr h c ps xs pos ->
  CursorMut.move_next c h =
    inr (CursorMut.mk (at_pos ps (pos_next (length ps) pos)) (CursorMut.list c)
           ((CursorMut.current_len c + 1) mod (length ps + 1)), h).
Proof.
  intros Hc. pose proof Hc as (Hl & _ & _). destruct Hl as (_ & _ & _ & _ & Hlen).
  unfold CursorMut.move_next.
  rewrite (bind_ok _ _ _ _ _ (cm_next_at h (CursorMut.inc_len c) ps xs pos Hc)).
  unfold ret, CursorMut.set_current; simpl. by rewrite Hlen.
Qed.

Lemma move_prev_repr h c ps xs pos :
  cursor_repr h c ps xs pos ->
  CursorMut.move_prev c h =
    inr (CursorMut.mk (at_pos ps (pos_prev (length ps) pos)) (CursorMut.list c)
           ((CursorMut.current_len c + length ps) mod (length ps + 1)), h).
Proof.
  intros Hc. pose proof Hc as (Hl & _ & _). destruct Hl as (_ & _ & _ & _ & Hlen).
  unfold CursorMut.move_prev.
  rewrite (bind_ok _ _ _ _ _ (cm_prev_at h (CursorMut.dec_len c) ps xs pos Hc)).
  unfold ret, CursorMut.set_current; simpl. by rewrite Hlen.
Qed.

(** Moves keep the cursor on the list and its offset equal to the number
    of elements at-and-before it. *)
Lemma run_moves_repr ms h c ps xs pos :
  cursor_repr h c ps xs pos -> CursorMut.current_len c = upto pos ->
  exists c' pos', run_moves ms c h = inr (c', h) /\
    cursor_repr h c' ps xs pos' /\ CursorMut.current_len c' = upto pos'.
Proof.
  revert c pos; induction ms as [|[] ms IH]; intros c pos Hc Hoff; simpl.
  - exists c, pos. done.
  - rewrite (bind_ok _ _ _ _ _ (move_next_repr _ _ _ _ _ Hc)).
    apply (IH _ (pos_next (length ps) pos)).
    + destruct Hc as (Hl & Hp & _). split; [done|]. split; [apply pos_ok_next|done].
    + simpl. rewrite Hoff. apply upto_next. apply Hc.
  - rewrite (bind_ok _ _ _ _ _ (move_prev_repr _ _ _ _ _ Hc)).
    apply (IH _ (pos_prev (length ps) pos)).
    + destruct Hc as (Hl & Hp & _). split; [done|]. split; [by apply pos_ok_prev|done].
    + simpl. rewrite Hoff. apply upto_prev. apply Hc.
Qed.

Lemma cursor_mut_repr h l ps xs :
  list_repr h l ps xs -> cursor_repr h (cursor_mut l) ps xs None.
Proof. intros Hl. split; [done|]. done. Qed.
End MoveLemmas.

(** * Cutting a list in two *)
Section SplitLemmas.
Context {T : Type}.
Implicit Types (h : heap T) (m : gmap ptr (Node.t T)) (ps : list ptr) (xs : list T).

Lemma list_repr_new h : list_repr h new [] [].
Proof. split; [apply NoDup_nil_2|]. done. Qed.

Lemma sub_usize_ok h a b : b <= a -> @sub_usize T a b h = inr (a - b, h).
Proof. intros Hb. unfold sub_usize. destruct (b <=? a) eqn:E; [done|]. apply Nat.leb_gt in E. lia. Qed.

Lemma last_take_S ps i p : ps !! i = Some p -> last (take (S i) ps) = Some p.
Proof. intros Hp. rewrite (take_S_r _ _ _ Hp). apply last_snoc. Qed.

Lemma nodup_take ps k : NoDup ps -> NoDup (take k ps).
Proof. intros H. rewrite <-(take_drop k ps) in H. by apply NoDup_app in H as [? _]. Qed.

Lemma nodup_drop ps k : NoDup ps -> NoDup (drop k ps).
Proof. intros H. rewrite <-(take_drop k ps) in H. by apply NoDup_app in H as (_ & _ & ?). Qed.

Lemma NoDup_take_drop_disjoint ps k p :
  NoDup ps -> p ∈ take k ps -> p ∉ drop k ps.
Proof.
  intros Hnd. rewrite <-(take_drop k ps) in Hnd. apply NoDup_app in Hnd as (_ & Hd & _).
  apply Hd.
Qed.

(** Severing the link between the node of index [i] and the next one. *)
Lemma dseg_cut m ps xs i p q np nq :
  NoDup ps -> dseg m None ps xs None -> ps !! i = Some p -> ps !! S i = Some q ->
  m !! p = Some np ->
  <[p := Node.mk None (Node.prev np) (Node.element np)]> m !! q = Some nq ->
  let m2 := <[q := Node.mk (Node.next nq) None (Node.element nq)]>
              (<[p := Node.mk None (Node.prev np) (Node.element np)]> m) in
  dseg m2 None (take (S i) ps) (take (S i) xs) None /\
  dseg m2 None (drop (S i) ps) (drop (S i) xs) None.
Proof.
  intros Hnd Hs Hp Hq Hnp Hnq m2.
  pose proof (dseg_length _ _ _ _ _ Hs) as Hlen.
  assert (Hpin : p ∈ take (S i) ps).
  { apply list_elem_of_lookup. exists i. rewrite lookup_take_lt; [done|lia]. }
  assert (Hqin : q ∈ drop (S i) ps).
  { apply list_elem_of_lookup. exists 0. rewrite lookup_drop. by rewrite Nat.add_0_r. }
  assert (Hqout : q ∉ take (S i) ps).
  { intros Hin. eapply NoDup_take_drop_disjoint; eauto. }
  pose proof Hnd as Hnd'. rewrite <-(take_drop (S i) ps) in Hnd'.
  apply NoDup_app in Hnd' as (Hnd1 & _ & Hnd2).
  rewrite <-(take_drop (S i) ps), <-(take_drop (S i) xs) in Hs.
  apply dseg_app in Hs as [Hs1 Hs2];
    [|rewrite !length_take; lia].
  unfold link_before in Hs2. rewrite (last_take_S _ _ _ Hp) in Hs2.
  destruct (drop (S i) ps) as [|q' ps2] eqn:Hd; [set_solver|].
  assert (q' = q) as ->.
  { assert (Hq0 : drop (S i) ps !! 0 = Some q) by (rewrite lookup_drop, Nat.add_0_r; done).
    rewrite Hd in Hq0. by injection Hq0. }
  simpl in Hs1. split.
  - apply dseg_insert_notin; [done|].
    apply (dseg_set_last_next _ _ _ _ (Some q)); [done|done| |done].
    by apply last_take_S.
  - apply (dseg_set_first_prev _ (Some p)); [|by apply NoDup_cons in Hnd2 as []|done].
    apply dseg_insert_notin; [|done].
    intros Hin. eapply NoDup_take_drop_disjoint; [exact Hnd|exact Hpin|].
    by rewrite Hd.
Qed.

Lemma dseg_node m pr ps xs nx i p :
  dseg m pr ps xs nx -> ps !! i = Some p ->
  exists n, m !! p = Some n /\ Node.next n = link_after (drop (S i) ps) nx /\
    Node.prev n = (match i with O => pr | S j => ps !! j end) /\
    xs !! i = Some (Node.element n).
Proof.
  intros Hs Hp. destruct (dseg_lookup _ _ _ _ _ _ _ Hs Hp) as (x & Hx & Hm).
  eexists. split; [exact Hm|]. done.
Qed.

(** [split_at] on a well-formed list, cutting after the node of index [i]
    with [split_len = S i]. *)
Lemma split_at_repr h c ps xs i p :
  list_repr h (CursorMut.list c) ps xs -> ps !! i = Some p ->
  exists h' kept rest,
    CursorMut.split_at c p (S i) h = inr ((kept, rest), h') /\
    list_repr h' kept (take (S i) ps) (take (S i) xs) /\
    list_repr h' rest (drop (S i) ps) (drop (S i) xs) /\
    tail kept = Some p /\ len kept = S i /\
    (S i < length ps -> tail rest = tail (CursorMut.list c)) /\
    fresh h' = fresh h.
Proof.
  intros Hl Hp. pose proof Hl as (Hnd & Hs & Hhd & Htl & Hlen).
  destruct (dseg_node _ _ _ _ _ _ _ Hs Hp) as (np & Hm & Hnx & Hpv & Hx).
  assert (Hi : i < length ps) by (eapply lookup_lt_Some; eauto).
  pose proof (dseg_length _ _ _ _ _ Hs) as Hlx.
  unfold CursorMut.split_at.
  rewrite link_after_drop in Hnx.
  destruct (ps !! S i) as [q|] eqn:Hq.
  - destruct (dseg_node _ _ _ _ _ _ _ Hs Hq) as (nq & Hmq & _ & Hqpv & _).
    assert (Hqp : q <> p).
    { intros ->. pose proof (NoDup_lookup _ _ _ _ Hnd Hp Hq). lia. }
    assert (Hmq1 : <[p := Node.mk None (Node.prev np) (Node.element np)]> (cells h) !! q
                   = Some nq) by (rewrite lookup_insert_ne; auto).
    destruct (dseg_cut _ _ _ _ _ _ _ _ Hnd Hs Hp Hq Hm Hmq1) as [Hc1 Hc2].
    do 3 eexists. split.
    { rewrite (bind_ok _ _ _ _ _ (read_next_ok _ _ _ Hm)), Hnx. cbv beta iota zeta.
      rewrite (bind_ok _ _ _ _ _ (sub_usize_ok h (len (CursorMut.list c)) (S i) ltac:(lia))).
      cbv beta iota zeta.
      rewrite (bind_ok _ _ _ _ _ (sub_usize_ok h (len (CursorMut.list c))
                                    (len (CursorMut.list c) - S i) ltac:(lia))).
      cbv beta iota zeta.
      rewrite (bind_ok _ _ _ _ _ (set_next_ok _ _ _ None Hm)). cbv beta iota zeta.
      rewrite (bind_ok _ _ _ _ _
                 (set_prev_ok (Heap _ (fresh h)) q nq None Hmq1)).
      reflexivity. }
    assert (Hsi : S i < length ps) by (apply lookup_lt_Some in Hq; lia).
    split; [|split; [|split; [done|split; [simpl; lia|split; [|done]]]]].
    + split; [by apply nodup_take|]. split; [exact Hc1|]. simpl.
      split; [rewrite Hhd, lookup_take_lt; [done|lia]|].
      split; [by rewrite (last_take_S _ _ _ Hp)|].
      rewrite length_take_le; lia.
    + split; [by apply nodup_drop|]. split; [exact Hc2|]. simpl.
      split; [by rewrite lookup_drop, Nat.add_0_r|].
      split; [|rewrite length_drop; lia].
      rewrite Htl. rewrite <-(take_drop (S i) ps) at 1. rewrite last_app.
      destruct (last (drop (S i) ps)) eqn:E; [done|].
      apply last_None in E. apply (f_equal length) in E. rewrite length_drop in E.
      simpl in E. lia.
    + intros _. simpl. done.
  - assert (Hsi : S i = length ps).
    { apply lookup_ge_None in Hq. lia. }
    do 3 eexists. split.
    { rewrite (bind_ok _ _ _ _ _ (read_next_ok _ _ _ Hm)), Hnx. reflexivity. }
    rewrite take_ge, drop_ge; [|lia|lia]. rewrite (take_ge xs), (drop_ge xs); [|lia|lia].
    split; [exact Hl|]. split; [apply list_repr_new|]. split.
    { rewrite Htl, last_lookup, <-Hsi. done. }
    split; [lia|]. split; [lia|done].
Qed.
End SplitLemmas.

Lemma list_repr_unique {T} (h : heap T) l1 l2 ps xs :
  list_repr h l1 ps xs -> list_repr h l2 ps xs -> l1 = l2.
Proof.
  intros (_ & _ & H1 & T1 & L1) (_ & _ & H2 & T2 & L2).
  destruct l1, l2; simpl in *. f_equal; congruence.
Qed.

Lemma run_moves_list {T} ms (c c' : CursorMut.t) (h h' : heap T) :
  run_moves ms c h = inr (c', h') -> CursorMut.list c' = CursorMut.list c.
Proof.
  revert c h; induction ms as [|[] ms IH]; intros c h; simpl.
  - unfold ret. congruence.
  - unfold bind, CursorMut.move_next, bind.
    destruct (CursorMut.next (CursorMut.inc_len c) h) as [e|[n h1]]; [done|].
    intros E. apply IH in E. rewrite E. done.
  - unfold bind, CursorMut.move_prev, bind.
    destruct (CursorMut.prev (CursorMut.dec_len c) h) as [e|[n h1]]; [done|].
    intros E. apply IH in E. rewrite E. done.
Qed.

(** * C1: [split] *)

(** C1. For every well-formed list and every cursor position reached by
    cursor moves from [cursor_mut], [split] keeps in the borrowed list the
    elements at-and-before the cursor (its tail becoming the cursor's node,
    its length the number of kept elements) and returns the elements strictly
    after it (with the original tail when there are any); at the ghost the
    whole list is returned and the borrowed list becomes empty.  For the list
    built from 0..10 with the cursor moved onto the value 3, the kept list is
    [0,1,2,3] and the returned one [4,5,6,7,8,9]. *)
Theorem split_partition :
  (forall (T : Type) (h : heap T) (l : LinkedList) (ps : list ptr) (xs : list T)
          (ms : list move),
     list_repr h l ps xs ->
     exists c pos,
       run_moves ms (cursor_mut l) h = inr (c, h) /\ CursorMut.current c = at_pos ps pos /\
       exists h' kept rest,
         CursorMut.split c h = inr ((kept, rest), h') /\
         match pos with
         | None => kept = new /\ rest = l /\ h' = h
         | Some i =>
             list_repr h' kept (take (S i) ps) (take (S i) xs) /\
             tail kept = ps !! i /\ len kept = S i /\
             list_repr h' rest (drop (S i) ps) (drop (S i) xs) /\
             (S i < length ps -> tail rest = tail l)
         end) /\
  run_fresh (let! l := from_iter (seq 0 10) in
             let! c := run_moves [Next; Next; Next; Next] (cursor_mut l) in
             let! r := CursorMut.split c in
             let! kept := fmt (fst r) in
             let! rest := fmt (snd r) in
             ret (kept, rest, len (fst r), len (snd r)))
  = Some ([0; 1; 2; 3], [4; 5; 6; 7; 8; 9], 4, 6).
Proof.
  split; [|vm_compute; reflexivity].
  intros T h l ps xs ms Hl.
  destruct (run_moves_repr ms h (cursor_mut l) ps xs None (cursor_mut_repr _ _ _ _ Hl) eq_refl)
    as (c & pos & Hrun & Hcr & Hoff).
  pose proof (run_moves_list _ _ _ _ _ Hrun) as Hlist. simpl in Hlist.
  exists c, pos. split; [done|]. split; [apply Hcr|].
  destruct Hcr as (Hl' & Hpos & Hcur).
  destruct pos as [i|]; simpl in Hpos, Hcur, Hoff.
  - destruct (lookup_lt_is_Some_2 ps i Hpos) as [p Hp].
    destruct (split_at_repr h c ps xs i p Hl' Hp)
      as (h' & kept & rest & Hsplit & Hk & Hr & Htk & Hlk & Htr & _).
    exists h', kept, rest. split.
    + unfold CursorMut.split. rewrite Hcur, Hp, Hoff. exact Hsplit.
    + rewrite Hlist in Htr. rewrite Htk, Hp. done.
  - exists h, new, l. split; [|done].
    unfold CursorMut.split. rewrite Hcur, Hlist. done.
Qed.

(** * C2, C3: [split_before] *)

Lemma head_no_prev {T} (h : heap T) l ps xs p :
  list_repr h l ps xs -> head l = Some p -> read_prev p h = inr (None, h).
Proof.
  intros (Hnd & Hs & Hhd & _) Hp. rewrite Hhd in Hp.
  destruct (dseg_node _ _ _ _ _ _ _ Hs Hp) as (n & Hm & _ & Hpv & _).
  rewrite (read_prev_ok _ _ _ Hm), Hpv. done.
Qed.

(** C2 (as the code does it). For every well-formed list and every cursor
    position reached by cursor moves from [cursor_mut], [split_before] keeps
    in the borrowed list the elements strictly before the cursor and returns
    the elements at-and-after it; at the ghost, and at the head (no previous
    element), the whole list is returned and the borrowed list becomes empty. *)
Theorem split_before_partition (T : Type) (h : heap T) (l : LinkedList)
    (ps : list ptr) (xs : list T) (ms : list move) :
  list_repr h l ps xs ->
  exists c pos,
    run_moves ms (cursor_mut l) h = inr (c, h) /\ CursorMut.current c = at_pos ps pos /\
    exists h' kept rest,
      CursorMut.split_before c h = inr ((kept, rest), h') /\
      match pos with
      | None => kept = new /\ rest = l /\ h' = h
      | Some i =>
          list_repr h' kept (take i ps) (take i xs) /\
          list_repr h' rest (drop i ps) (drop i xs) /\
          (i = 0 -> kept = new /\ rest = l /\ h' = h)
      end.
Proof.
  intros Hl.
  destruct (run_moves_repr ms h (cursor_mut l) ps xs None (cursor_mut_repr _ _ _ _ Hl) eq_refl)
    as (c & pos & Hrun & Hcr & Hoff).
  pose proof (run_moves_list _ _ _ _ _ Hrun) as Hlist. simpl in Hlist.
  exists c, pos. split; [done|]. split; [apply Hcr|].
  destruct Hcr as (Hl' & Hpos & Hcur). rewrite Hlist in Hl'.
  destruct pos as [i|]; simpl in Hpos, Hcur, Hoff.
  - destruct (lookup_lt_is_Some_2 ps i Hpos) as [p Hp].
    pose proof Hl as (Hnd & Hs & Hhd & _).
    destruct (dseg_node _ _ _ _ _ _ _ Hs Hp) as (np & Hm & _ & Hpv & _).
    unfold CursorMut.split_before. rewrite Hcur, Hp.
    rewrite (bind_ok _ _ _ _ _ (read_prev_ok _ _ _ Hm)), Hpv.
    destruct i as [|j].
    + exists h, new, l. rewrite Hlist. split; [done|].
      rewrite take_0, drop_0, take_0, drop_0. split; [apply list_repr_new|]. done.
    + destruct (lookup_lt_is_Some_2 ps j ltac:(lia)) as [p' Hp'].
      rewrite Hp', Hoff. cbv beta iota.
      rewrite (bind_ok _ _ _ _ _ (sub_usize_ok h (S (S j)) 1 ltac:(lia))).
      replace (S (S j) - 1) with (S j) by lia.
      rewrite <-Hlist in Hl.
      destruct (split_at_repr h c ps xs j p' Hl Hp')
        as (h' & kept & rest & Hsplit & Hk & Hr & _).
      exists h', kept, rest. split; [exact Hsplit|]. split; [done|]. split; [done|].
      intros; lia.
  - exists h, new, l. split; [|done].
    unfold CursorMut.split_before. rewrite Hcur, Hlist. done.
Qed.

Lemma demo_repr : list_repr demo_heap demo_list demo_ptrs [0; 1; 2].
Proof.
  split; [|vm_compute; repeat split].
  repeat constructor; vm_compute; intros H; repeat (inversion H as [|? ? ? H']; subst; clear H; rename H' into H).
Qed.

(** C2 as stated fails: on [0,1,2] with the cursor on the value 1,
    [split_before] keeps [0] and returns [1,2] (the claim has [1,2] kept and
    [0] returned); with the cursor on the head it keeps nothing and returns
    the whole list (the claim has the whole list kept and nothing returned). *)
Lemma split_before_counterexample :
  run_fresh (let! l := from_iter [0; 1; 2] in
             let! c := run_moves [Next; Next] (cursor_mut l) in
             let! r := CursorMut.split_before c in
             let! kept := fmt (fst r) in
             let! rest := fmt (snd r) in
             ret (kept, rest)) = Some ([0], [1; 2]) /\
  run_fresh (let! l := from_iter [0; 1; 2] in
             let! c := run_moves [Next] (cursor_mut l) in
             let! r := CursorMut.split_before c in
             let! kept := fmt (fst r) in
             let! rest := fmt (snd r) in
             ret (kept, rest)) = Some ([], [0; 1; 2]).
Proof. split; vm_compute; reflexivity. Qed.

(** C3. For every well-formed list, [split_before] with the cursor at the
    ghost returns the whole list and leaves the borrowed list empty; with the
    cursor on the head element it does the same: the kept list is empty and
    the returned list is the full original.  The heap is untouched. *)
Theorem split_before_ghost_head (T : Type) (h : heap T) (c : CursorMut.t)
    (ps : list ptr) (xs : list T) :
  list_repr h (CursorMut.list c) ps xs ->
  (CursorMut.current c = None ->
   CursorMut.split_before c h = inr ((new, CursorMut.list c), h)) /\
  (CursorMut.current c = head (CursorMut.list c) ->
   CursorMut.split_before c h = inr ((new, CursorMut.list c), h)).
Proof.
  intros Hl. split.
  - intros Hc. unfold CursorMut.split_before. rewrite Hc. done.
  - intros Hc. unfold CursorMut.split_before.
    destruct (CursorMut.current c) as [p|] eqn:E; [|done].
    rewrite (bind_ok _ _ _ _ _ (head_no_prev _ _ _ _ p Hl (eq_sym Hc))). done.
Qed.

(** Witnesses: the theorems above at the list [0,1,2]. *)
Lemma split_partition_witness :
  list_repr demo_heap demo_list demo_ptrs [0; 1; 2] /\
  exists c pos,
    run_moves [Next; Next] (cursor_mut demo_list) demo_heap = inr (c, demo_heap) /\
    CursorMut.current c = at_pos demo_ptrs pos /\
    exists h' kept rest,
      CursorMut.split c demo_heap = inr ((kept, rest), h') /\
      match pos with
      | None => kept = new /\ rest = demo_list /\ h' = demo_heap
      | Some i =>
          list_repr h' kept (take (S i) demo_ptrs) (take (S i) [0; 1; 2]) /\
          tail kept = demo_ptrs !! i /\ len kept = S i /\
          list_repr h' rest (drop (S i) demo_ptrs) (drop (S i) [0; 1; 2]) /\
          (S i < length demo_ptrs -> tail rest = tail demo_list)
      end.
Proof.
  split; [exact demo_repr|].
  exact (proj1 split_partition nat demo_heap demo_list demo_ptrs [0; 1; 2]
           [Next; Next] demo_repr).
Defined.

Lemma split_before_partition_witness :
  list_repr demo_heap demo_list demo_ptrs [0; 1; 2] /\
  exists c pos,
    run_moves [Next; Next] (cursor_mut demo_list) demo_heap = inr (c, demo_heap) /\
    CursorMut.current c = at_pos demo_ptrs pos /\
    exists h' kept rest,
      CursorMut.split_before c demo_heap = inr ((kept, rest), h') /\
      match pos with
      | None => kept = new /\ rest = demo_list /\ h' = demo_heap
      | Some i =>
          list_repr h' kept (take i demo_ptrs) (take i [0; 1; 2]) /\
          list_repr h' rest (drop i demo_ptrs) (drop i [0; 1; 2]) /\
          (i = 0 -> kept = new /\ rest = demo_list /\ h' = demo_heap)
      end.
Proof.
  split; [exact demo_repr|].
  exact (split_before_partition nat demo_heap demo_list demo_ptrs [0; 1; 2]
           [Next; Next] demo_repr).
Defined.

Lemma split_before_ghost_head_witness :
  list_repr demo_heap (CursorMut.list demo_at_head) demo_ptrs [0; 1; 2] /\
  (CursorMut.current demo_at_head = None ->
   CursorMut.split_before demo_at_head demo_heap
   = inr ((new, CursorMut.list demo_at_head), demo_heap)) /\
  (CursorMut.current demo_at_head = head (CursorMut.list demo_at_head) ->
   CursorMut.split_before demo_at_head demo_heap
   = inr ((new, CursorMut.list demo_at_head), demo_heap)).
Proof.
  split; [exact demo_repr|].
  exact (split_before_ghost_head nat demo_heap demo_at_head demo_ptrs [0; 1; 2]
           demo_repr).
Defined.

(** * Relinking the two sides of an edit *)
Section Relink.
Context {T : Type}.
Implicit Types (h : heap T) (m : gmap ptr (Node.t T)) (ps : list ptr) (xs : list T).

Lemma dseg_frame m m' pr ps xs nx :
  (forall r, r ∈ ps -> m' !! r = m !! r) -> dseg m pr ps xs nx -> dseg m' pr ps xs nx.
Proof.
  revert pr xs; induction ps as [|q ps IH]; intros pr [|x xs]; simpl; try done.
  intros Hfr [Hq Hs]. split.
  - rewrite Hfr; [done|]. apply list_elem_of_here.
  - apply IH; [|done]. intros r Hr. apply Hfr. by apply list_elem_of_further.
Qed.

(** The link into the edit from the side before it: [head] of the list
    when nothing precedes, the [next] of the last node before otherwise. *)
Lemma relink_before h (l : LinkedList) o v ps xs nx :
  NoDup ps -> dseg (cells h) None ps xs nx -> o = last ps ->
  exists h',
    (match o with
     | None => ret (set_head l v)
     | Some p => let! _ := set_next p v in ret l
     end) h = inr (match o with None => set_head l v | Some _ => l end, h') /\
    dseg (cells h') None ps xs v /\
    (forall r, r ∉ ps -> cells h' !! r = cells h !! r) /\ fresh h' = fresh h.
Proof.
  intros Hnd Hs ->. destruct (last ps) as [p|] eqn:Hlast.
  - assert (Hp : p ∈ ps) by (by apply last_Some_elem_of).
    destruct (dseg_in _ _ _ _ _ _ Hs Hp) as [n Hn].
    eexists. split.
    { rewrite (bind_ok _ _ _ _ _ (set_next_ok _ _ _ v Hn)). reflexivity. }
    cbn [cells]. split; [by apply (dseg_set_last_next _ _ _ _ nx)|].
    split; [|done]. intros r Hr. rewrite lookup_insert_ne; [done|]. set_solver.
  - apply last_None in Hlast as ->. destruct xs; [|done].
    exists h. done.
Qed.

(** The link into the edit from the side after it: [tail] of the list
    when nothing follows, the [prev] of the first node after otherwise. *)
Lemma relink_after h (l : LinkedList) o v pr ps xs :
  NoDup ps -> dseg (cells h) pr ps xs None -> o = ps !! 0 ->
  exists h',
    (match o with
     | None => ret (set_tail l v)
     | Some q => let! _ := set_prev q v in ret l
     end) h = inr (match o with None => set_tail l v | Some _ => l end, h') /\
    dseg (cells h') v ps xs None /\
    (forall r, r ∉ ps -> cells h' !! r = cells h !! r) /\ fresh h' = fresh h.
Proof.
  intros Hnd Hs ->. destruct ps as [|q ps].
  - destruct xs; [|done]. exists h. done.
  - change ((q :: ps) !! 0) with (Some q).
    pose proof Hs as Hs'. destruct xs as [|x xs]; [done|]. destruct Hs' as [Hq _].
    eexists. split.
    { rewrite (bind_ok _ _ _ _ _ (set_prev_ok _ _ _ v Hq)). reflexivity. }
    cbn [cells]. split.
    + apply (dseg_set_first_prev _ pr); [done|by apply NoDup_cons in Hnd as []|done].
    + split; [|done]. intros r Hr. rewrite lookup_insert_ne; [done|]. set_solver.
Qed.
End Relink.

(** * [insert_before] and [insert] on a well-formed list *)

Lemma link_after_lookup0 (ps : list ptr) : link_after ps None = ps !! 0.
Proof. by destruct ps. Qed.

Lemma link_before_last (ps : list ptr) : link_before ps None = last ps.
Proof. unfold link_before. by destruct (last ps). Qed.

Lemma at_pos_before (ps : list ptr) pos :
  pos_ok (length ps) pos -> at_pos ps pos = drop (before_index (length ps) pos) ps !! 0.
Proof.
  intros Hp. rewrite lookup_drop, Nat.add_0_r. destruct pos as [i|]; simpl; [done|].
  symmetry. by apply lookup_ge_None_2.
Qed.

Lemma at_pos_prev_before (ps : list ptr) pos :
  pos_ok (length ps) pos ->
  at_pos ps (pos_prev (length ps) pos) = last (take (before_index (length ps) pos) ps).
Proof.
  intros Hp. rewrite at_pos_prev. destruct pos as [[|j]|]; simpl in *.
  - done.
  - destruct (lookup_lt_is_Some_2 ps j ltac:(lia)) as [p Hq]. rewrite Hq.
    symmetry. by apply last_take_S.
  - by rewrite take_ge.
Qed.

Lemma at_pos_after (ps : list ptr) pos :
  pos_ok (length ps) pos -> at_pos ps pos = last (take (after_index pos) ps).
Proof.
  intros Hp. destruct pos as [i|]; simpl in *; [|done].
  destruct (lookup_lt_is_Some_2 ps i Hp) as [p Hq]. rewrite Hq. symmetry.
  by apply last_take_S.
Qed.

Lemma at_pos_next_after (ps : list ptr) pos :
  at_pos ps (pos_next (length ps) pos) = drop (after_index pos) ps !! 0.
Proof.
  rewrite at_pos_next, lookup_drop, Nat.add_0_r. by destruct pos.
Qed.

Section Inserts.
Context {T : Type}.
Implicit Types (h : heap T) (ps : list ptr) (xs : list T).

Lemma alloc_ok h n :
  alloc n h = inr (fresh h, Heap (<[fresh h := n]> (cells h)) (Pos.succ (fresh h))).
Proof. done. Qed.

(** Splicing the nodes [qs] between two halves of a list, once every piece
    carries the right boundary links. *)
Lemma dseg_join m ps1 qs ps2 xs1 ys xs2 :
  length ps1 = length xs1 -> length qs = length ys ->
  dseg m None ps1 xs1 (link_after qs (link_after ps2 None)) ->
  dseg m (last ps1) qs ys (link_after ps2 None) ->
  dseg m (link_before qs (last ps1)) ps2 xs2 None ->
  dseg m None (ps1 ++ qs ++ ps2) (xs1 ++ ys ++ xs2) None.
Proof.
  intros L1 L2 H1 H2 H3. apply dseg_app; [done|].
  rewrite link_after_app, link_before_last. split; [done|].
  apply dseg_app; [done|]. done.
Qed.

Lemma nodup_splice ps1 qs ps2 :
  NoDup (ps1 ++ ps2) -> NoDup qs -> (forall r, r ∈ qs -> r ∉ ps1 ++ ps2) ->
  NoDup (ps1 ++ qs ++ ps2).
Proof.
  intros H12 Hq Hd. apply NoDup_app in H12 as (N1 & D12 & N2).
  apply NoDup_app. split; [done|]. split.
  - intros r Hr. rewrite elem_of_app. intros [Hin|Hin].
    + apply (Hd r Hin). rewrite elem_of_app. by left.
    + by apply (D12 r Hr).
  - apply NoDup_app. split; [done|]. split; [|done].
    intros r Hr Hin. apply (Hd r Hr). rewrite elem_of_app. by right.
Qed.
End Inserts.

Lemma in_take_in (ps : list ptr) k r : r ∈ take k ps -> r ∈ ps.
Proof. intros H. rewrite <-(take_drop k ps). apply elem_of_app. by left. Qed.

Lemma in_drop_in (ps : list ptr) k r : r ∈ drop k ps -> r ∈ ps.
Proof. intros H. rewrite <-(take_drop k ps). apply elem_of_app. by right. Qed.

Lemma take_drop_disj (ps : list ptr) k r : NoDup ps -> r ∈ drop k ps -> r ∉ take k ps.
Proof. intros Hnd Hd Ht. by apply (NoDup_take_drop_disjoint ps k r Hnd Ht). Qed.

Lemma heap_ok_notin {T} (h : heap T) pr ps xs nx r :
  heap_ok h -> dseg (cells h) pr ps xs nx -> (fresh h <= r)%positive -> r ∉ ps.
Proof.
  intros Hok Hs Hr Hin. destruct (dseg_in _ _ _ _ _ _ Hs Hin) as [n Hn].
  rewrite Hok in Hn; done.
Qed.

Lemma list_repr_halves {T} (h : heap T) l ps xs k :
  list_repr h l ps xs ->
  dseg (cells h) None (take k ps) (take k xs) (link_after (drop k ps) None) /\
  dseg (cells h) (last (take k ps)) (drop k ps) (drop k xs) None /\
  NoDup (take k ps) /\ NoDup (drop k ps) /\ length ps = length xs.
Proof.
  intros (Hnd & Hs & _). pose proof (dseg_length _ _ _ _ _ Hs) as Hlx.
  rewrite <-(take_drop k ps), <-(take_drop k xs) in Hs.
  apply dseg_app in Hs as [Hs1 Hs2]; [|rewrite !length_take; lia].
  rewrite link_before_last in Hs2.
  split; [done|]. split; [done|]. split; [by apply nodup_take|]. split; [by apply nodup_drop|done].
Qed.

Lemma splice_head (ps : list ptr) k np :
  (take k ps ++ np :: drop k ps) !! 0 =
  match last (take k ps) with None => Some np | Some _ => ps !! 0 end.
Proof.
  destruct (take k ps) as [|p t] eqn:Et; [done|].
  assert (Hp : ps !! 0 = Some p).
  { rewrite <-(take_drop k ps), lookup_app_l, Et; [done|]. rewrite Et. simpl. lia. }
  rewrite Hp. simpl. destruct (last (p :: t)) eqn:El; [done|]. by apply last_None in El.
Qed.

Lemma splice_last (ps : list ptr) k np :
  last (take k ps ++ np :: drop k ps) =
  match drop k ps !! 0 with None => Some np | Some _ => last ps end.
Proof.
  rewrite last_app_cons.
  destruct (drop k ps) as [|q t] eqn:Ed; [done|]. simpl.
  assert (Hl : last ps = last (q :: t)) by (rewrite <-(take_drop k ps), Ed; apply last_app_cons).
  by rewrite Hl.
Qed.

(** [insert_before] adds a fresh node at the cursor's index (at the end when
    the cursor is at the ghost), linked in both directions, and shifts the
    cursor's index by one; the offset goes through [inc_len]. *)
Lemma insert_before_repr {T} (h : heap T) c ps xs pos (x : T) :
  heap_ok h -> cursor_repr h c ps xs pos ->
  exists c' h',
    CursorMut.insert_before x c h = inr (c', h') /\ heap_ok h' /\
    cursor_repr h' c'
      (take (before_index (length ps) pos) ps ++ fresh h :: drop (before_index (length ps) pos) ps)
      (take (before_index (length ps) pos) xs ++ x :: drop (before_index (length ps) pos) xs)
      (option_map S pos) /\
    CursorMut.current_len c' = (CursorMut.current_len c + 1) mod (length ps + 2) /\
    (forall r, r ∉ ps -> r <> fresh h -> cells h' !! r = cells h !! r).
Proof.
  intros Hok Hc. pose proof Hc as (Hl & Hpos & Hcur). pose proof Hl as (Hnd & Hs & Hhd & Htl & Hlen).
  remember (before_index (length ps) pos) as k eqn:Hk.
  assert (Hkle : k <= length ps) by (subst k; destruct pos; simpl in *; lia).
  destruct (list_repr_halves h _ ps xs k Hl) as (Hs1 & Hs2 & Hnd1 & Hnd2 & Hlx).
  assert (Hnp : fresh h ∉ ps) by (eapply heap_ok_fresh; eauto).
  assert (Hnp1 : fresh h ∉ take k ps) by (intros Hin; apply Hnp; eapply in_take_in; eauto).
  assert (Hnp2 : fresh h ∉ drop k ps) by (intros Hin; apply Hnp; eapply in_drop_in; eauto).
  assert (Hcur' : CursorMut.current c = drop k ps !! 0) by (rewrite Hcur, Hk; by apply at_pos_before).
  assert (Hpv : forall h0, cursor_repr h0 c ps xs pos ->
                 CursorMut.prev c h0 = inr (last (take k ps), h0)).
  { intros h0 Hc0. rewrite (cm_prev_at _ _ _ _ _ Hc0), Hk. by rewrite at_pos_prev_before. }
  set (nnode := Node.mk (CursorMut.current c) (last (take k ps)) x).
  set (h1 := Heap (<[fresh h := nnode]> (cells h)) (Pos.succ (fresh h))).
  assert (Hc1 : cursor_repr h1 c ps xs pos).
  { split; [|done]. split; [done|]. split; [by apply dseg_insert_notin|done]. }
  unfold CursorMut.insert_before.
  rewrite (bind_ok _ _ _ _ _ (Hpv h Hc)). cbv beta.
  rewrite (bind_ok _ _ _ _ _ (alloc_ok _ _)). cbv beta. fold nnode. fold h1.
  rewrite (bind_ok _ _ _ _ _ (Hpv h1 Hc1)). cbv beta.
  destruct (relink_before h1 (CursorMut.list c) (last (take k ps)) (Some (fresh h))
              (take k ps) (take k xs) (link_after (drop k ps) None) Hnd1
              (dseg_insert_notin _ _ _ _ _ _ _ Hnp1 Hs1) eq_refl)
    as (h2 & Hr2 & Hs1' & Hfr2 & Hf2).
  rewrite (bind_ok _ _ _ _ _ Hr2). cbv beta.
  assert (Hs2' : dseg (cells h2) (last (take k ps)) (drop k ps) (drop k xs) None).
  { apply (dseg_frame (cells h1)).
    - intros r Hr. apply Hfr2. by apply (take_drop_disj ps k r Hnd).
    - by apply dseg_insert_notin. }
  destruct (relink_after h2 (match last (take k ps) with
                             | None => set_head (CursorMut.list c) (Some (fresh h))
                             | Some _ => CursorMut.list c end)
              (CursorMut.current c) (Some (fresh h)) (last (take k ps))
              (drop k ps) (drop k xs) Hnd2 Hs2' Hcur')
    as (h3 & Hr3 & Hs2'' & Hfr3 & Hf3).
  rewrite (bind_ok _ _ _ _ _ Hr3). cbv beta. unfold ret.
  do 2 eexists. split; [reflexivity|].
  (* frames of the final heap *)
  assert (Hfr : forall r, r ∉ take k ps -> r ∉ drop k ps -> cells h3 !! r = cells h1 !! r).
  { intros r H1 H2. rewrite Hfr3; [|done]. by apply Hfr2. }
  assert (Hnew : cells h3 !! fresh h = Some nnode).
  { rewrite Hfr; [|done|done]. simpl. apply lookup_insert_eq. }
  split; [|split; [|split]].
  - (* heap_ok *)
    intros r Hr. cbn [CursorMut.current CursorMut.list] in *.
    rewrite Hf3, Hf2 in Hr. simpl in Hr.
    assert (Hrps : r ∉ ps) by (apply (heap_ok_notin h None ps xs None r Hok Hs); lia).
    rewrite Hfr.
    + simpl. rewrite lookup_insert_ne; [|lia]. apply Hok. lia.
    + intros Hin. apply Hrps. eapply in_take_in; eauto.
    + intros Hin. apply Hrps. eapply in_drop_in; eauto.
  - split; [|split].
    + (* list_repr *)
      split; [|split; [|split; [|split]]].
      * apply (nodup_splice _ [fresh h]); [by rewrite take_drop|by apply NoDup_singleton|].
        intros r Hr. apply list_elem_of_singleton in Hr as ->. by rewrite take_drop.
      * change (fresh h :: drop k ps) with ([fresh h] ++ drop k ps).
        change (x :: drop k xs) with ([x] ++ drop k xs).
        apply dseg_join; [rewrite !length_take; lia|done| | |].
        -- apply (dseg_frame (cells h2)); [|done].
           intros r Hr. apply Hfr3. by apply (NoDup_take_drop_disjoint ps k r Hnd).
        -- simpl. split; [|done]. rewrite Hnew. unfold nnode. rewrite Hcur', link_after_lookup0.
           done.
        -- done.
      * rewrite Hcur', splice_head.
        destruct (last (take k ps)); destruct (drop k ps !! 0); simpl; by rewrite ?Hhd.
      * rewrite Hcur', splice_last.
        destruct (last (take k ps)); destruct (drop k ps !! 0); simpl; by rewrite ?Htl.
      * rewrite Hcur'. destruct (last (take k ps)); destruct (drop k ps !! 0); simpl;
          rewrite length_app; simpl; rewrite length_take, length_drop; rewrite ?Hlen; lia.
    + destruct pos as [i|]; simpl in *; [|done].
      rewrite length_app; simpl. rewrite length_take, length_drop. lia.
    + destruct pos as [i|]; simpl in *; [|done].
      subst k. simpl. rewrite lookup_app_r; rewrite length_take; [|lia].
      replace (S i - min i (length ps)) with 1 by lia. simpl.
      rewrite Hcur. simpl. by rewrite lookup_drop, Nat.add_0_r.
  - simpl. rewrite Hcur'. destruct (last (take k ps)); destruct (drop k ps !! 0); simpl;
      rewrite Hlen; f_equal; lia.
  - intros r Hq1 Hq2. rewrite Hfr.
    + simpl. by rewrite lookup_insert_ne.
    + intros Hin. apply Hq1. eapply in_take_in; eauto.
    + intros Hin. apply Hq1. eapply in_drop_in; eauto.
Qed.

(** * Construction and traversal *)
Section BuildLemmas.
Context {T : Type}.
Implicit Types (h : heap T) (xs ys : list T).

Lemma insert_all_repr h c ps xs ys :
  heap_ok h -> cursor_repr h c ps xs None ->
  exists c' h' ps',
    insert_all ys c h = inr (c', h') /\ heap_ok h' /\ cursor_repr h' c' ps' (xs ++ ys) None.
Proof.
  revert h c ps xs; induction ys as [|y ys IH]; intros h c ps xs Hok Hc.
  - exists c, h, ps. rewrite app_nil_r. done.
  - destruct (insert_before_repr h c ps xs None y Hok Hc) as (c1 & h1 & E & Hok1 & Hc1 & _ & _).
    cbn [before_index option_map] in Hc1.
    pose proof Hc as ((_ & Hs & _) & _). pose proof (dseg_length _ _ _ _ _ Hs) as Hlx.
    rewrite take_ge, drop_ge in Hc1 by lia. rewrite Hlx, take_ge, drop_ge in Hc1 by lia.
    destruct (IH h1 c1 _ _ Hok1 Hc1) as (c' & h' & ps' & E' & Hok' & Hc').
    exists c', h', ps'. simpl. rewrite (bind_ok _ _ _ _ _ E). split; [done|].
    split; [done|]. by rewrite <-app_assoc in Hc'.
Qed.

Lemma from_iter_repr h xs :
  heap_ok h ->
  exists l h' ps, from_iter xs h = inr (l, h') /\ heap_ok h' /\ list_repr h' l ps xs.
Proof.
  intros Hok.
  assert (Hc : cursor_repr h (cursor_mut new) [] [] None) by (split; [apply list_repr_new|done]).
  destruct (insert_all_repr h _ [] [] xs Hok Hc) as (c' & h' & ps' & E & Hok' & Hl & _).
  exists (CursorMut.list c'), h', ps'. unfold from_iter. by rewrite (bind_ok _ _ _ _ _ E).
Qed.

Lemma empty_heap_ok : heap_ok (@empty_heap T).
Proof. intros p _. done. Qed.

Lemma element_at_ok h l ps xs i p :
  list_repr h l ps xs -> ps !! i = Some p ->
  Cursor.element_at (Some p) h = inr (xs !! i, h).
Proof.
  intros (_ & Hs & _) Hp. destruct (dseg_lookup _ _ _ _ _ _ _ Hs Hp) as (x & Hx & Hn).
  unfold Cursor.element_at. rewrite (bind_ok _ _ _ _ _ (deref_ok _ _ _ Hn)). by rewrite Hx.
Qed.

Lemma element_at_elem h l ps xs o :
  list_repr h l ps xs -> (forall p, o = Some p -> p ∈ ps) ->
  exists r, Cursor.element_at o h = inr (r, h) /\ (o = None -> r = None).
Proof.
  intros Hl Ho. destruct o as [p|]; [|by exists None].
  destruct (list_elem_of_lookup_1 ps p (Ho p eq_refl)) as [i Hi].
  exists (xs !! i). split; [by eapply element_at_ok|done].
Qed.

Lemma cursor_move_next h l ps xs pos :
  list_repr h l ps xs -> pos_ok (length ps) pos ->
  Cursor.move_next (Cursor.mk (at_pos ps pos) l) h =
    inr (Cursor.mk (at_pos ps (pos_next (length ps) pos)) l, h).
Proof.
  intros Hl Hp. unfold Cursor.move_next, Cursor.next.
  by rewrite (bind_ok _ _ _ _ _ (step_next h l _ ps xs pos Hl Hp eq_refl)).
Qed.

Lemma cursor_move_prev h l ps xs pos :
  list_repr h l ps xs -> pos_ok (length ps) pos ->
  Cursor.move_prev (Cursor.mk (at_pos ps pos) l) h =
    inr (Cursor.mk (at_pos ps (pos_prev (length ps) pos)) l, h).
Proof.
  intros Hl Hp. unfold Cursor.move_prev, Cursor.prev.
  by rewrite (bind_ok _ _ _ _ _ (step_prev h l _ ps xs pos Hl Hp eq_refl)).
Qed.

(** Forward from index [i]: the elements after it, then the ghost. *)
Lemma forward_from h l ps xs i :
  list_repr h l ps xs -> i < length ps ->
  forward (length ps - i) (Cursor.mk (ps !! i) l) h =
    inr (map Some (drop (S i) xs) ++ [None], h).
Proof.
  intros Hl. pose proof Hl as (_ & Hs & _). pose proof (dseg_length _ _ _ _ _ Hs) as Hlx.
  remember (length ps - i) as n eqn:Hn. revert i Hn.
  induction n as [|n IH]; intros i Hn Hi; [lia|].
  simpl. change (ps !! i) with (at_pos ps (Some i)).
  rewrite (bind_ok _ _ _ _ _ (cursor_move_next h l ps xs (Some i) Hl Hi)). cbv beta.
  unfold Cursor.current_elem. cbn [Cursor.current]. rewrite at_pos_next.
  destruct (decide (S i < length ps)) as [Hlt|Hge].
  - destruct (lookup_lt_is_Some_2 ps (S i) Hlt) as [p Hp]. rewrite Hp.
    rewrite (bind_ok _ _ _ _ _ (element_at_ok h l ps xs (S i) p Hl Hp)). cbv beta.
    rewrite <-Hp. rewrite (bind_ok _ _ _ _ _ (IH (S i) ltac:(lia) Hlt)). cbv beta.
    unfold ret. f_equal. f_equal.
    destruct (lookup_lt_is_Some_2 xs (S i) ltac:(lia)) as [x Hx].
    rewrite Hx. rewrite (drop_S xs x (S i) Hx). done.
  - rewrite (lookup_ge_None_2 ps (S i)) by lia. simpl.
    assert (n = 0) as -> by lia. simpl. unfold ret.
    rewrite drop_ge by lia. done.
Qed.

(** Backward from index [i]: the elements before it, then the ghost. *)
Lemma backward_from h l ps xs i :
  list_repr h l ps xs -> i < length ps ->
  backward (S i) (Cursor.mk (ps !! i) l) h =
    inr (map Some (rev (take i xs)) ++ [None], h).
Proof.
  intros Hl. pose proof Hl as (_ & Hs & _). pose proof (dseg_length _ _ _ _ _ Hs) as Hlx.
  induction i as [|i IH]; intros Hi.
  - simpl. change (ps !! 0) with (at_pos ps (Some 0)).
    rewrite (bind_ok _ _ _ _ _ (cursor_move_prev h l ps xs (Some 0) Hl Hi)). cbv beta.
    unfold Cursor.current_elem. cbn [Cursor.current]. rewrite at_pos_prev. done.
  - cbn [backward]. change (ps !! S i) with (at_pos ps (Some (S i))).
    rewrite (bind_ok _ _ _ _ _ (cursor_move_prev h l ps xs (Some (S i)) Hl Hi)). cbv beta.
    unfold Cursor.current_elem. cbn [Cursor.current]. rewrite at_pos_prev.
    destruct (lookup_lt_is_Some_2 ps i ltac:(lia)) as [p Hp]. rewrite Hp.
    rewrite (bind_ok _ _ _ _ _ (element_at_ok h l ps xs i p Hl Hp)). cbv beta.
    rewrite <-Hp. rewrite (bind_ok _ _ _ _ _ (IH ltac:(lia))). cbv beta.
    unfold ret. f_equal. f_equal.
    destruct (lookup_lt_is_Some_2 xs i ltac:(lia)) as [x Hx].
    rewrite Hx, (take_S_r xs i x Hx), rev_app_distr. done.
Qed.

Lemma forward_ghost h l ps xs :
  list_repr h l ps xs ->
  forward (S (length xs)) (cursor l) h = inr (map Some xs ++ [None], h).
Proof.
  intros Hl. pose proof Hl as (_ & Hs & _). pose proof (dseg_length _ _ _ _ _ Hs) as Hlx.
  cbn [forward]. change (cursor l) with (Cursor.mk (at_pos ps None) l).
  rewrite (bind_ok _ _ _ _ _ (cursor_move_next h l ps xs None Hl I)). cbv beta.
  unfold Cursor.current_elem. cbn [Cursor.current]. rewrite at_pos_next.
  destruct ps as [|p ps'] eqn:Eps.
  - destruct xs; [|done]. done.
  - subst ps. change ((p :: ps') !! 0) with (Some p).
    rewrite (bind_ok _ _ _ _ _ (element_at_ok h l (p :: ps') xs 0 p Hl eq_refl)). cbv beta.
    change (Some p) with ((p :: ps') !! 0). rewrite <-Hlx.
    replace (length (p :: ps')) with (length (p :: ps') - 0) by lia.
    rewrite (bind_ok _ _ _ _ _ (forward_from h l (p :: ps') xs 0 Hl ltac:(simpl; lia))).
    cbv beta. unfold ret. destruct xs as [|x xs]; [done|]. done.
Qed.

Lemma backward_ghost h l ps xs :
  list_repr h l ps xs ->
  backward (S (length xs)) (cursor l) h = inr (map Some (rev xs) ++ [None], h).
Proof.
  intros Hl. pose proof Hl as (_ & Hs & _). pose proof (dseg_length _ _ _ _ _ Hs) as Hlx.
  cbn [backward]. change (cursor l) with (Cursor.mk (at_pos ps None) l).
  rewrite (bind_ok _ _ _ _ _ (cursor_move_prev h l ps xs None Hl I)). cbv beta.
  unfold Cursor.current_elem. cbn [Cursor.current]. rewrite at_pos_prev.
  destruct (last ps) as [p|] eqn:El.
  - assert (Hne : 0 < length ps) by (destruct ps; [done|simpl; lia]).
    assert (Hp : ps !! (length ps - 1) = Some p) by (rewrite last_lookup in El; by rewrite Nat.sub_1_r).
    rewrite (bind_ok _ _ _ _ _ (element_at_ok h l ps xs _ p Hl Hp)). cbv beta.
    rewrite <-Hp. replace (length xs) with (S (length ps - 1)) by lia.
    rewrite (bind_ok _ _ _ _ _ (backward_from h l ps xs (length ps - 1) Hl ltac:(lia))).
    cbv beta. unfold ret.
    destruct (lookup_lt_is_Some_2 xs (length ps - 1) ltac:(lia)) as [x Hx].
    rewrite Hx. f_equal. f_equal.
    rewrite <-(take_drop (length ps - 1) xs) at 2.
    rewrite (drop_S xs x _ Hx), drop_ge by lia.
    rewrite rev_app_distr. done.
  - apply last_None in El. subst ps. destruct xs; [|done]. done.
Qed.
End BuildLemmas.

(** * Removal *)
Section PopLemmas.
Context {T : Type}.
Implicit Types (h : heap T) (xs : list T).

Lemma cursor_at_last h c ps1 qs xs pos :
  cursor_repr h c (ps1 ++ qs) xs pos -> after_index pos = length ps1 ->
  CursorMut.current c = last ps1.
Proof.
  intros (_ & Hp & Hc) Hj. rewrite Hc, at_pos_after, Hj; [|done].
  by rewrite take_app_length.
Qed.

Lemma pos_remove ps1 p ps2 pos :
  pos_ok (length (ps1 ++ p :: ps2)) pos -> after_index pos = length ps1 ->
  pos_ok (length (ps1 ++ ps2)) pos /\
  at_pos (ps1 ++ ps2) pos = at_pos (ps1 ++ p :: ps2) pos.
Proof.
  intros Hp Hj. destruct pos as [i|]; simpl in *; [|done].
  rewrite length_app. split; [lia|]. rewrite !lookup_app_l; [done|lia|lia].
Qed.

(** [pop] with a node after the cursor: that node is unlinked and released,
    its element returned, and the cursor keeps its position. *)
Lemma pop_repr_split h c ps1 p ps2 xs1 x xs2 pos :
  heap_ok h -> cursor_repr h c (ps1 ++ p :: ps2) (xs1 ++ x :: xs2) pos ->
  after_index pos = length ps1 -> length xs1 = length ps1 ->
  exists c' h',
    CursorMut.pop c h = inr ((c', Some x), h') /\ heap_ok h' /\
    cursor_repr h' c' (ps1 ++ ps2) (xs1 ++ xs2) pos /\
    CursorMut.current_len c' = CursorMut.current_len c mod (length ps1 + length ps2 + 1) /\
    cells h' !! p = None /\
    (forall r, r ∉ ps1 ++ p :: ps2 -> cells h' !! r = cells h !! r).
Proof.
  intros Hok Hc Hj Hlx1. pose proof Hc as (Hl & Hpos & Hcur0).
  pose proof Hl as (Hnd & Hs & Hhd & Htl & Hlen).
  pose proof (cursor_at_last _ _ _ _ _ _ Hc Hj) as Hcur.
  apply dseg_app in Hs as [Hs1 Hs2]; [|done].
  rewrite link_before_last in Hs2. destruct Hs2 as [Hpn Hs2].
  pose proof Hnd as Hnd'. apply NoDup_app in Hnd' as (Hnd1 & Hdisj & Hnd2').
  apply NoDup_cons in Hnd2' as [Hp2 Hnd2].
  assert (Hp1 : p ∉ ps1) by (intros Hin; apply (Hdisj p Hin); apply list_elem_of_here).
  assert (H12 : forall r, r ∈ ps1 -> r ∉ ps2)
    by (intros r Hr Hr2; apply (Hdisj r Hr); by apply list_elem_of_further).
  assert (Hnx : CursorMut.next c h = inr (Some p, h)).
  { rewrite (cm_next_at _ _ _ _ _ Hc), at_pos_next_after, Hj. by rewrite drop_app_length. }
  unfold CursorMut.pop. rewrite (bind_ok _ _ _ _ _ Hnx). cbv beta iota.
  rewrite (bind_ok _ _ _ _ _ (sub_usize_ok h (len (CursorMut.list c)) 1
             ltac:(rewrite Hlen, length_app; simpl; lia))).
  cbv beta iota zeta. cbn [CursorMut.current CursorMut.list CursorMut.current_len].
  rewrite (bind_ok _ _ _ _ _ (read_next_ok _ _ _ Hpn)). cbv beta. cbn [Node.next].
  rewrite Hcur.
  destruct (relink_before h (set_len (CursorMut.list c) (len (CursorMut.list c) - 1))
              (last ps1) (link_after ps2 None) ps1 xs1 (Some p) Hnd1 Hs1 eq_refl)
    as (h2 & Hr2 & Hs1' & Hfr2 & Hf2).
  rewrite (bind_ok _ _ _ _ _ Hr2). cbv beta.
  assert (Hpn2 : cells h2 !! p = cells h !! p) by (by apply Hfr2).
  rewrite Hpn in Hpn2.
  rewrite (bind_ok _ _ _ _ _ (read_next_ok _ _ _ Hpn2)). cbv beta. cbn [Node.next].
  assert (Hs2' : dseg (cells h2) (Some p) ps2 xs2 None).
  { apply (dseg_frame (cells h)); [|done]. intros r Hr. apply Hfr2.
    intros Hr1. by apply (H12 r Hr1). }
  destruct (relink_after h2 (match last ps1 with
                             | None => set_head (set_len (CursorMut.list c)
                                                   (len (CursorMut.list c) - 1))
                                                (link_after ps2 None)
                             | Some _ => set_len (CursorMut.list c) (len (CursorMut.list c) - 1)
                             end)
              (link_after ps2 None) (last ps1) (Some p) ps2 xs2 Hnd2 Hs2'
              (link_after_lookup0 ps2))
    as (h3 & Hr3 & Hs2'' & Hfr3 & Hf3).
  rewrite (bind_ok _ _ _ _ _ Hr3). cbv beta.
  assert (Hpn3 : cells h3 !! p = cells h2 !! p) by (by apply Hfr3).
  rewrite Hpn2 in Hpn3.
  rewrite (bind_ok _ _ _ _ _ (free_ok _ _ _ Hpn3)). cbv beta. unfold ret.
  do 2 eexists. split; [reflexivity|].
  assert (Hfr : forall r, r ∉ ps1 -> r ∉ ps2 -> cells h3 !! r = cells h !! r).
  { intros r H1 H2. rewrite Hfr3; [|done]. by apply Hfr2. }
  split; [|split; [|split; [|split]]].
  - intros r Hr. simpl in Hr. rewrite Hf3, Hf2 in Hr. simpl.
    destruct (decide (r = p)) as [->|Hne]; [apply lookup_delete_eq|].
    rewrite lookup_delete_ne by congruence.
    assert (Hrps : r ∉ ps1 ++ p :: ps2)
      by (apply (heap_ok_notin h None _ (xs1 ++ x :: xs2) None r Hok); [|lia];
          apply dseg_app; [done|]; split; [done|]; rewrite link_before_last; by split).
    rewrite Hfr.
    + by apply Hok.
    + intros Hin. apply Hrps. apply elem_of_app. by left.
    + intros Hin. apply Hrps. apply elem_of_app. right. by apply list_elem_of_further.
  - destruct (pos_remove ps1 p ps2 pos Hpos Hj) as [Hpos' Hat].
    split; [|split; [done|]].
    + split; [|split; [|split; [|split]]].
      * apply NoDup_app. split; [done|]. split; [done|done].
      * apply dseg_app; [done|]. rewrite link_before_last. split.
        -- apply dseg_delete_notin; [done|]. apply (dseg_frame (cells h2)); [|done].
           intros r Hr. apply Hfr3. by apply H12.
        -- by apply dseg_delete_notin.
      * simpl. destruct (last ps1) as [q|] eqn:El.
        -- destruct (link_after ps2 None); simpl; rewrite Hhd; destruct ps1; done.
        -- apply last_None in El. subst ps1.
           destruct (link_after ps2 None) eqn:E2; simpl; by rewrite <-link_after_lookup0, E2.
      * simpl. destruct ps2 as [|q ps2']; simpl.
        -- rewrite app_nil_r. destruct (last ps1); done.
        -- destruct (last ps1); simpl; by rewrite Htl, !last_app_cons, last_cons_cons.
      * simpl. destruct (last ps1); destruct (link_after ps2 None); simpl;
          rewrite Hlen, !length_app; simpl; lia.
    + simpl. by rewrite Hat, <-Hcur0, Hcur.
  - simpl. destruct (last ps1); destruct (link_after ps2 None); simpl;
      rewrite Hlen, !length_app; simpl; f_equal; lia.
  - simpl. apply lookup_delete_eq.
  - intros r Hr. simpl. rewrite lookup_delete_ne.
    + apply Hfr; intros Hin; apply Hr; apply elem_of_app; [by left|].
      right. by apply list_elem_of_further.
    + intros ->. apply Hr. apply elem_of_app. right. apply list_elem_of_here.
Qed.
End PopLemmas.

Section PopMore.
Context {T : Type}.
Implicit Types (h : heap T) (xs : list T).

Lemma pop_none h c ps xs pos :
  cursor_repr h c ps xs pos -> after_index pos = length ps ->
  CursorMut.pop c h = inr ((c, None), h).
Proof.
  intros Hc Hj. unfold CursorMut.pop.
  rewrite (bind_ok _ _ _ _ _ (cm_next_at _ _ _ _ _ Hc)), at_pos_next_after, Hj.
  by rewrite drop_ge.
Qed.

Lemma after_index_le (ps : list ptr) pos : pos_ok (length ps) pos -> after_index pos <= length ps.
Proof. destruct pos; simpl; lia. Qed.

Lemma pop_n_empty h c k :
  cursor_repr h c [] [] None -> pop_n k c h = inr ((replicate k None, c), h).
Proof.
  intros Hc. induction k as [|k IH]; [done|].
  simpl. rewrite (bind_ok _ _ _ _ _ (pop_none h c [] [] None Hc eq_refl)). cbv beta.
  simpl. by rewrite (bind_ok _ _ _ _ _ IH).
Qed.

Lemma pop_n_ghost h c ps xs k :
  heap_ok h -> cursor_repr h c ps xs None ->
  exists c' h', pop_n (length xs + k) c h = inr ((map Some xs ++ replicate k None, c'), h') /\
    heap_ok h' /\ cursor_repr h' c' [] ([] : list T) None.
Proof.
  revert h c ps; induction xs as [|x xs IH]; intros h c ps Hok Hc.
  - pose proof Hc as ((_ & Hs & _) & _). destruct ps; [|done].
    exists c, h. simpl. by rewrite (pop_n_empty h c k Hc).
  - pose proof Hc as ((_ & Hs & _) & _). destruct ps as [|p ps]; [done|].
    destruct (pop_repr_split h c [] p ps [] x xs None Hok Hc eq_refl eq_refl)
      as (c1 & h1 & E & Hok1 & Hc1 & _).
    destruct (IH h1 c1 ps Hok1 Hc1) as (c' & h' & E' & Hok' & Hc').
    exists c', h'. simpl. rewrite (bind_ok _ _ _ _ _ E). simpl.
    by rewrite (bind_ok _ _ _ _ _ E').
Qed.

(** [pop] in general: the result is the element right after the cursor,
    absent exactly when [next] finds nothing, in which case nothing changes;
    otherwise that node leaves the list and the cursor keeps its place. *)
Lemma pop_general h c ps xs pos :
  heap_ok h -> cursor_repr h c ps xs pos ->
  exists c' r h', CursorMut.pop c h = inr ((c', r), h') /\
    r = xs !! after_index pos /\
    (r = None <-> CursorMut.next c h = inr (None, h)) /\
    (r = None -> c' = c /\ h' = h) /\
    (r <> None -> heap_ok h' /\
       cursor_repr h' c' (delete (after_index pos) ps) (delete (after_index pos) xs) pos).
Proof.
  intros Hok Hc. pose proof Hc as ((_ & Hs & _) & Hpos & _).
  pose proof (dseg_length _ _ _ _ _ Hs) as Hlx.
  pose proof (after_index_le ps pos Hpos) as Hle.
  assert (Hnx : CursorMut.next c h = inr (ps !! after_index pos, h)).
  { rewrite (cm_next_at _ _ _ _ _ Hc), at_pos_next_after. by rewrite lookup_drop, Nat.add_0_r. }
  rewrite Hnx.
  destruct (decide (after_index pos = length ps)) as [Heq|Hne].
  - exists c, None, h. rewrite (pop_none h c ps xs pos Hc Heq).
    rewrite Heq, (lookup_ge_None_2 ps), (lookup_ge_None_2 xs) by lia. done.
  - set (j := after_index pos) in *.
    destruct (lookup_lt_is_Some_2 ps j ltac:(lia)) as [p Hp].
    destruct (lookup_lt_is_Some_2 xs j ltac:(lia)) as [x Hx].
    pose proof Hc as Hc'.
    rewrite <-(take_drop_middle ps j p Hp), <-(take_drop_middle xs j x Hx) in Hc'.
    destruct (pop_repr_split h c (take j ps) p (drop (S j) ps) (take j xs) x (drop (S j) xs)
                pos Hok Hc' ltac:(rewrite length_take; lia) ltac:(rewrite !length_take; lia))
      as (c' & h' & E & Hok' & Hc'' & _).
    exists c', (Some x), h'. rewrite E, Hx, Hp.
    split; [done|]. split; [done|]. split; [split; congruence|]. split; [done|].
    intros _. rewrite !delete_take_drop. done.
Qed.
End PopMore.

(** * Construction, traversal and removal: the claims *)

(** C7: for every sequence [s], the list [from_iter s] (each element inserted
    before the ghost of one cursor) is traversed by a read-only cursor from
    the ghost, with [move_next] then [current], as the elements of [s] in
    order followed by an absent [current]; with [move_prev] then [current],
    as [s] reversed followed by an absent [current]. *)
Theorem from_iter_traversal {T} (s : list T) (h : heap T) :
  heap_ok h ->
  exists l h', from_iter s h = inr (l, h') /\
    forward (S (length s)) (cursor l) h' = inr (map Some s ++ [None], h') /\
    backward (S (length s)) (cursor l) h' = inr (map Some (rev s) ++ [None], h').
Proof.
  intros Hok. destruct (from_iter_repr h s Hok) as (l & h' & ps & E & _ & Hl).
  exists l, h'. split; [done|]. split.
  - by apply (forward_ghost h' l ps).
  - by apply (backward_ghost h' l ps).
Qed.

Lemma from_iter_traversal_witness :
  heap_ok (@empty_heap nat) /\
  exists l h', from_iter [0; 1; 2] empty_heap = inr (l, h') /\
    forward 4 (cursor l) h' = inr ([Some 0; Some 1; Some 2; None], h') /\
    backward 4 (cursor l) h' = inr ([Some 2; Some 1; Some 0; None], h').
Proof.
  split; [intros p _; reflexivity|].
  apply (from_iter_traversal [0; 1; 2] empty_heap). intros p _; reflexivity.
Defined.

(** C8: on the list built from [s], [length s + k] calls of [pop] on a cursor
    left at the ghost return the elements of [s] in order and then [k] absent
    results, and leave the list empty.  In general, on a well-formed list,
    [pop] returns the element right after the cursor; its result is absent
    exactly when [next] finds no node, and then nothing changes; otherwise
    that node is unlinked and the cursor keeps its position. *)
Theorem pop_front_and_general :
  (forall (T : Type) (s : list T) (h : heap T) (k : nat),
     heap_ok h ->
     exists l h1, from_iter s h = inr (l, h1) /\
       exists c' h2,
         pop_n (length s + k) (cursor_mut l) h1 =
           inr ((map Some s ++ replicate k None, c'), h2) /\
         CursorMut.list c' = new /\ CursorMut.current c' = None) /\
  (forall (T : Type) (h : heap T) c ps xs pos,
     heap_ok h -> cursor_repr h c ps xs pos ->
     exists c' r h', CursorMut.pop c h = inr ((c', r), h') /\
       r = xs !! after_index pos /\
       (r = None <-> CursorMut.next c h = inr (None, h)) /\
       (r = None -> c' = c /\ h' = h) /\
       (r <> None -> heap_ok h' /\
          cursor_repr h' c' (delete (after_index pos) ps) (delete (after_index pos) xs) pos)).
Proof.
  split.
  - intros T s h k Hok. destruct (from_iter_repr h s Hok) as (l & h1 & ps & E & Hok1 & Hl).
    exists l, h1. split; [done|].
    destruct (pop_n_ghost h1 (cursor_mut l) ps s k Hok1 (cursor_mut_repr h1 l ps s Hl))
      as (c' & h2 & E' & _ & (Hl' & _ & Hcur)).
    exists c', h2. split; [done|]. split; [|done].
    by apply (list_repr_unique h2 _ _ [] []); [|apply list_repr_new].
  - intros T h c ps xs pos. apply pop_general.
Qed.

Lemma pop_front_and_general_witness :
  (heap_ok (@empty_heap nat) /\
   exists l h1, from_iter [7; 8] empty_heap = inr (l, h1) /\
     exists c' h2, pop_n 3 (cursor_mut l) h1 = inr (([Some 7; Some 8; None], c'), h2) /\
       CursorMut.list c' = new /\ CursorMut.current c' = None) /\
  (heap_ok demo_heap /\ cursor_repr demo_heap (cursor_mut demo_list) demo_ptrs [0; 1; 2] None /\
   exists c' r h', CursorMut.pop (cursor_mut demo_list) demo_heap = inr ((c', r), h') /\
     r = Some 0 /\
     (r = None <-> CursorMut.next (cursor_mut demo_list) demo_heap = inr (None, demo_heap)) /\
     (r = None -> c' = cursor_mut demo_list /\ h' = demo_heap) /\
     (r <> None -> heap_ok h' /\
        cursor_repr h' c' (delete 0 demo_ptrs) (delete 0 [0; 1; 2]) None)).
Proof.
  split.
  - split; [intros p _; reflexivity|].
    apply (proj1 pop_front_and_general nat [7; 8] empty_heap 1). intros p _; reflexivity.
  - assert (Hok : heap_ok demo_heap).
    { intros p Hp. unfold demo_heap in *. cbn [fresh] in Hp.
      destruct p as [p|p|]; [|destruct p as [p|p|]|];
        try (destruct p as [p|p|]); try reflexivity; simpl in Hp; lia. }
    assert (Hc : cursor_repr demo_heap (cursor_mut demo_list) demo_ptrs [0; 1; 2] None).
    { split; [exact demo_repr|]. split; reflexivity. }
    split; [exact Hok|]. split; [exact Hc|].
    apply (proj2 pop_front_and_general nat demo_heap _ _ _ None Hok Hc).
Defined.

Lemma drop_empty {T} (other : LinkedList) (h : heap T) :
  head other = None -> CursorMut.drop other h = inr (tt, h).
Proof.
  intros Hh. unfold CursorMut.drop. simpl.
  unfold CursorMut.pop, CursorMut.next. simpl. rewrite Hh. done.
Qed.

(** C10: splicing a list with no head and no tail (an empty list) with
    [insert_list] or [insert_list_before] returns the cursor unchanged (its
    list with the same length, head and tail, its position and offset) and
    the heap unchanged (every node and link), without a fault; this holds for
    every receiving cursor. *)
Theorem insert_list_empty_noop {T} (other : LinkedList) (c : CursorMut.t) (h : heap T) :
  head other = None -> tail other = None ->
  CursorMut.insert_list other c h = inr (c, h) /\
  CursorMut.insert_list_before other c h = inr (c, h).
Proof.
  intros Hh Ht. split.
  - unfold CursorMut.insert_list, CursorMut.insert_list_splice. rewrite Hh, Ht.
    rewrite (bind_ok _ _ _ _ _ (eq_refl : ret c h = inr (c, h))).
    by rewrite (bind_ok _ _ _ _ _ (drop_empty other h Hh)).
  - unfold CursorMut.insert_list_before, CursorMut.insert_list_before_splice. rewrite Hh, Ht.
    rewrite (bind_ok _ _ _ _ _ (eq_refl : ret c h = inr (c, h))).
    by rewrite (bind_ok _ _ _ _ _ (drop_empty other h Hh)).
Qed.

Lemma insert_list_empty_noop_witness :
  head new = None /\ tail new = None /\
  CursorMut.insert_list new (CursorMut.mk (Some 2%positive) demo_list 2) demo_heap =
    inr (CursorMut.mk (Some 2%positive) demo_list 2, demo_heap) /\
  CursorMut.insert_list_before new (CursorMut.mk (Some 2%positive) demo_list 2) demo_heap =
    inr (CursorMut.mk (Some 2%positive) demo_list 2, demo_heap).
Proof.
  split; [reflexivity|]. split; [reflexivity|].
  apply (insert_list_empty_noop new _ demo_heap); reflexivity.
Defined.

Section InsertAfter.
Context {T : Type}.
Implicit Types (h : heap T) (xs : list T).

Lemma pos_insert_after (ps : list ptr) np pos :
  pos_ok (length ps) pos ->
  pos_ok (length (take (after_index pos) ps ++ np :: drop (after_index pos) ps)) pos /\
  at_pos (take (after_index pos) ps ++ np :: drop (after_index pos) ps) pos = at_pos ps pos.
Proof.
  intros Hp. destruct pos as [i|]; simpl in *; [|done].
  rewrite length_app; simpl. rewrite length_take, length_drop. split; [lia|].
  rewrite lookup_app_l; [|rewrite length_take; lia]. rewrite lookup_take_lt; [done|lia].
Qed.

(** [insert] adds a fresh node right after the cursor; the cursor and its
    offset do not change. *)
Lemma insert_repr h c ps xs pos (x : T) :
  heap_ok h -> cursor_repr h c ps xs pos ->
  exists c' h',
    CursorMut.insert x c h = inr (c', h') /\ heap_ok h' /\
    cursor_repr h' c'
      (take (after_index pos) ps ++ fresh h :: drop (after_index pos) ps)
      (take (after_index pos) xs ++ x :: drop (after_index pos) xs) pos /\
    CursorMut.current_len c' = CursorMut.current_len c.
Proof.
  intros Hok Hc. pose proof Hc as (Hl & Hpos & Hcur0). pose proof Hl as (Hnd & Hs & Hhd & Htl & Hlen).
  pose proof (after_index_le ps pos Hpos) as Hkle.
  remember (after_index pos) as k eqn:Hk.
  destruct (list_repr_halves h _ ps xs k Hl) as (Hs1 & Hs2 & Hnd1 & Hnd2 & Hlx).
  assert (Hnp : fresh h ∉ ps) by (eapply heap_ok_fresh; eauto).
  assert (Hnp1 : fresh h ∉ take k ps) by (intros Hin; apply Hnp; eapply in_take_in; eauto).
  assert (Hnp2 : fresh h ∉ drop k ps) by (intros Hin; apply Hnp; eapply in_drop_in; eauto).
  assert (Hcur : CursorMut.current c = last (take k ps)) by (rewrite Hcur0, Hk; by apply at_pos_after).
  assert (Hnx : forall h0, cursor_repr h0 c ps xs pos ->
                 CursorMut.next c h0 = inr (drop k ps !! 0, h0)).
  { intros h0 Hc0. rewrite (cm_next_at _ _ _ _ _ Hc0), Hk. by rewrite at_pos_next_after. }
  set (nnode := Node.mk (drop k ps !! 0) (CursorMut.current c) x).
  set (h1 := Heap (<[fresh h := nnode]> (cells h)) (Pos.succ (fresh h))).
  assert (Hc1 : cursor_repr h1 c ps xs pos).
  { split; [|done]. split; [done|]. split; [by apply dseg_insert_notin|done]. }
  unfold CursorMut.insert.
  rewrite (bind_ok _ _ _ _ _ (Hnx h Hc)). cbv beta.
  rewrite (bind_ok _ _ _ _ _ (alloc_ok _ _)). cbv beta. fold nnode. fold h1.
  rewrite (bind_ok _ _ _ _ _ (Hnx h1 Hc1)). cbv beta.
  destruct (relink_after h1 (CursorMut.list c) (drop k ps !! 0) (Some (fresh h))
              (last (take k ps)) (drop k ps) (drop k xs) Hnd2
              (dseg_insert_notin _ _ _ _ _ _ _ Hnp2 Hs2) eq_refl)
    as (h2 & Hr2 & Hs2' & Hfr2 & Hf2).
  rewrite (bind_ok _ _ _ _ _ Hr2). cbv beta.
  assert (Hs1' : dseg (cells h2) None (take k ps) (take k xs) (link_after (drop k ps) None)).
  { apply (dseg_frame (cells h1)).
    - intros r Hr. apply Hfr2. by apply (NoDup_take_drop_disjoint ps k r Hnd).
    - by apply dseg_insert_notin. }
  rewrite Hcur.
  destruct (relink_before h2 (match drop k ps !! 0 with
                              | None => set_tail (CursorMut.list c) (Some (fresh h))
                              | Some _ => CursorMut.list c end)
              (last (take k ps)) (Some (fresh h)) (take k ps) (take k xs)
              (link_after (drop k ps) None) Hnd1 Hs1' eq_refl)
    as (h3 & Hr3 & Hs1'' & Hfr3 & Hf3).
  rewrite (bind_ok _ _ _ _ _ Hr3). cbv beta. unfold ret.
  do 2 eexists. split; [reflexivity|].
  assert (Hfr : forall r, r ∉ take k ps -> r ∉ drop k ps -> cells h3 !! r = cells h1 !! r).
  { intros r H1 H2. rewrite Hfr3; [|done]. by apply Hfr2. }
  assert (Hnew : cells h3 !! fresh h = Some nnode).
  { rewrite Hfr; [|done|done]. simpl. apply lookup_insert_eq. }
  split; [|split; [|done]].
  - intros r Hr. cbn [CursorMut.current CursorMut.list] in *.
    rewrite Hf3, Hf2 in Hr. simpl in Hr.
    assert (Hrps : r ∉ ps) by (apply (heap_ok_notin h None ps xs None r Hok Hs); lia).
    rewrite Hfr.
    + simpl. rewrite lookup_insert_ne; [|lia]. apply Hok. lia.
    + intros Hin. apply Hrps. eapply in_take_in; eauto.
    + intros Hin. apply Hrps. eapply in_drop_in; eauto.
  - destruct (pos_insert_after ps (fresh h) pos Hpos) as [Hpos' Hat].
    rewrite <-Hk in Hpos', Hat.
    split; [|split; [done|]].
    + split; [|split; [|split; [|split]]].
      * apply (nodup_splice _ [fresh h]); [by rewrite take_drop|by apply NoDup_singleton|].
        intros r Hr. apply list_elem_of_singleton in Hr as ->. by rewrite take_drop.
      * change (fresh h :: drop k ps) with ([fresh h] ++ drop k ps).
        change (x :: drop k xs) with ([x] ++ drop k xs).
        apply dseg_join; [rewrite !length_take; lia|done|done| |].
        -- simpl. split; [|done]. rewrite Hnew. unfold nnode. rewrite Hcur.
           by rewrite link_after_lookup0.
        -- apply (dseg_frame (cells h2)); [|done].
           intros r Hr. apply Hfr3. intros Hin. by apply (NoDup_take_drop_disjoint ps k r Hnd).
      * rewrite splice_head.
        destruct (last (take k ps)); destruct (drop k ps !! 0); simpl; by rewrite ?Hhd.
      * rewrite splice_last.
        destruct (last (take k ps)); destruct (drop k ps !! 0); simpl; by rewrite ?Htl.
      * destruct (last (take k ps)); destruct (drop k ps !! 0); simpl;
          rewrite length_app; simpl; rewrite length_take, length_drop; rewrite ?Hlen; lia.
    + simpl. rewrite Hat, <-Hcur0. done.
Qed.
End InsertAfter.

Section PopPrev.
Context {T : Type}.
Implicit Types (h : heap T) (xs : list T).

Lemma drop_mid (ps1 ps2 : list ptr) p : drop (S (length ps1)) (ps1 ++ p :: ps2) = ps2.
Proof. induction ps1 as [|q ps1 IH]; simpl; [done|exact IH]. Qed.

Lemma take_mid (ps1 ps2 : list ptr) p : take (S (length ps1)) (ps1 ++ p :: ps2) = ps1 ++ [p].
Proof. induction ps1 as [|q ps1 IH]; simpl; [done|by rewrite IH]. Qed.

Lemma pos_remove_before ps1 p ps2 pos :
  pos_ok (length (ps1 ++ p :: ps2)) pos ->
  before_index (length (ps1 ++ p :: ps2)) pos = S (length ps1) ->
  pos_ok (length (ps1 ++ ps2)) (option_map pred pos) /\
  at_pos (ps1 ++ ps2) (option_map pred pos) = link_after ps2 None.
Proof.
  intros Hp Hb. destruct pos as [i|]; simpl in *.
  - rewrite length_app in *. simpl in *. split; [lia|]. subst i. simpl.
    rewrite lookup_app_r, Nat.sub_diag; [|lia]. by rewrite link_after_lookup0.
  - rewrite length_app in Hb. simpl in Hb. split; [done|].
    destruct ps2; [done|]. simpl in Hb. lia.
Qed.

(** [pop_prev] with a node before the cursor: that node is unlinked and
    released, its element returned; the cursor stays on its node, whose
    index drops by one, and the offset goes through [dec_len]. *)
Lemma pop_prev_repr_split h c ps1 p ps2 xs1 x xs2 pos :
  heap_ok h -> cursor_repr h c (ps1 ++ p :: ps2) (xs1 ++ x :: xs2) pos ->
  before_index (length (ps1 ++ p :: ps2)) pos = S (length ps1) -> length xs1 = length ps1 ->
  exists c' h',
    CursorMut.pop_prev c h = inr ((c', Some x), h') /\ heap_ok h' /\
    cursor_repr h' c' (ps1 ++ ps2) (xs1 ++ xs2) (option_map pred pos) /\
    CursorMut.current_len c' =
      (CursorMut.current_len c + (length ps1 + length ps2)) mod (length ps1 + length ps2 + 1).
Proof.
  intros Hok Hc Hb Hlx1. pose proof Hc as (Hl & Hpos & Hcur0).
  pose proof Hl as (Hnd & Hs & Hhd & Htl & Hlen).
  assert (Hcur : CursorMut.current c = link_after ps2 None).
  { rewrite Hcur0, at_pos_before, Hb, drop_mid; [|done]. by rewrite link_after_lookup0. }
  assert (Hpv : CursorMut.prev c h = inr (Some p, h)).
  { rewrite (cm_prev_at _ _ _ _ _ Hc), at_pos_prev_before, Hb, take_mid; [|done].
    by rewrite last_snoc. }
  apply dseg_app in Hs as [Hs1 Hs2]; [|done].
  rewrite link_before_last in Hs2. destruct Hs2 as [Hpn Hs2].
  pose proof Hnd as Hnd'. apply NoDup_app in Hnd' as (Hnd1 & Hdisj & Hnd2').
  apply NoDup_cons in Hnd2' as [Hp2 Hnd2].
  assert (Hp1 : p ∉ ps1) by (intros Hin; apply (Hdisj p Hin); apply list_elem_of_here).
  assert (H12 : forall r, r ∈ ps1 -> r ∉ ps2)
    by (intros r Hr Hr2; apply (Hdisj r Hr); by apply list_elem_of_further).
  unfold CursorMut.pop_prev. rewrite (bind_ok _ _ _ _ _ Hpv). cbv beta iota.
  rewrite (bind_ok _ _ _ _ _ (sub_usize_ok h (len (CursorMut.list c)) 1
             ltac:(rewrite Hlen, length_app; simpl; lia))).
  cbv beta iota zeta.
  cbn [CursorMut.current CursorMut.list CursorMut.current_len CursorMut.dec_len
       CursorMut.set_list].
  rewrite (bind_ok _ _ _ _ _ (read_prev_ok _ _ _ Hpn)). cbv beta. cbn [Node.prev].
  rewrite Hcur.
  set (L := set_len (CursorMut.list c) (len (CursorMut.list c) - 1)).
  destruct (relink_before h L (last ps1) (link_after ps2 None) ps1 xs1 (Some p) Hnd1 Hs1 eq_refl)
    as (h2 & Hr2 & Hs1' & Hfr2 & Hf2).
  rewrite (bind_ok _ _ _ _ _ Hr2). cbv beta.
  assert (Hpn2 : cells h2 !! p = cells h !! p) by (by apply Hfr2).
  rewrite Hpn in Hpn2.
  assert (Hs2' : dseg (cells h2) (Some p) ps2 xs2 None).
  { apply (dseg_frame (cells h)); [|done]. intros r Hr. apply Hfr2.
    intros Hr1. by apply (H12 r Hr1). }
  set (L1 := match last ps1 with None => set_head L (link_after ps2 None) | Some _ => L end).
  destruct (relink_after h2 L1 (link_after ps2 None) (last ps1) (Some p) ps2 xs2 Hnd2 Hs2'
              (link_after_lookup0 ps2))
    as (h3 & Hr3 & Hs2'' & Hfr3 & Hf3).
  assert (Hr3' : (match link_after ps2 None with
                  | None => let! p2 := read_prev p in ret (set_tail L1 p2)
                  | Some nxt => let! p2 := read_prev p in
                                let! _ := set_prev nxt p2 in ret L1
                  end) h2 =
                 inr (match link_after ps2 None with
                      | None => set_tail L1 (last ps1) | Some _ => L1 end, h3)).
  { rewrite <-Hr3. destruct (link_after ps2 None);
      by rewrite (bind_ok _ _ _ _ _ (read_prev_ok _ _ _ Hpn2)). }
  rewrite (bind_ok _ _ _ _ _ Hr3'). cbv beta.
  assert (Hpn3 : cells h3 !! p = cells h2 !! p) by (by apply Hfr3).
  rewrite Hpn2 in Hpn3.
  rewrite (bind_ok _ _ _ _ _ (free_ok _ _ _ Hpn3)). cbv beta. unfold ret.
  do 2 eexists. split; [reflexivity|].
  assert (Hfr : forall r, r ∉ ps1 -> r ∉ ps2 -> cells h3 !! r = cells h !! r).
  { intros r H1 H2. rewrite Hfr3; [|done]. by apply Hfr2. }
  split; [|split].
  - intros r Hr. simpl in Hr. rewrite Hf3, Hf2 in Hr. simpl.
    destruct (decide (r = p)) as [->|Hne]; [apply lookup_delete_eq|].
    rewrite lookup_delete_ne by congruence.
    assert (Hrps : r ∉ ps1 ++ p :: ps2)
      by (apply (heap_ok_notin h None _ (xs1 ++ x :: xs2) None r Hok); [|lia];
          apply dseg_app; [done|]; split; [done|]; rewrite link_before_last; by split).
    rewrite Hfr.
    + by apply Hok.
    + intros Hin. apply Hrps. apply elem_of_app. by left.
    + intros Hin. apply Hrps. apply elem_of_app. right. by apply list_elem_of_further.
  - destruct (pos_remove_before ps1 p ps2 pos Hpos Hb) as [Hpos' Hat].
    split; [|split; [done|]].
    + unfold L1, L. split; [|split; [|split; [|split]]].
      * apply NoDup_app. split; [done|]. split; [done|done].
      * apply dseg_app; [done|]. rewrite link_before_last. split.
        -- apply dseg_delete_notin; [done|]. apply (dseg_frame (cells h2)); [|done].
           intros r Hr. apply Hfr3. by apply H12.
        -- by apply dseg_delete_notin.
      * simpl. destruct (last ps1) as [q|] eqn:El.
        -- destruct (link_after ps2 None); simpl; rewrite Hhd; destruct ps1; done.
        -- apply last_None in El. subst ps1.
           destruct (link_after ps2 None) eqn:E2; simpl; by rewrite <-link_after_lookup0, E2.
      * simpl. destruct ps2 as [|q ps2']; simpl.
        -- rewrite app_nil_r. destruct (last ps1); done.
        -- destruct (last ps1); simpl; by rewrite Htl, !last_app_cons, last_cons_cons.
      * simpl. destruct (last ps1); destruct (link_after ps2 None); simpl;
          rewrite Hlen, !length_app; simpl; lia.
    + simpl. by rewrite Hat.
  - simpl. unfold L1, L. destruct (last ps1); destruct (link_after ps2 None); simpl;
      rewrite Hlen, !length_app; simpl; f_equal; lia.
Qed.
End PopPrev.

Lemma pop_prev_none {T} (h : heap T) c ps xs pos :
  cursor_repr h c ps xs pos -> before_index (length ps) pos = 0 ->
  CursorMut.pop_prev c h = inr ((c, None), h).
Proof.
  intros Hc Hb. unfold CursorMut.pop_prev.
  rewrite (bind_ok _ _ _ _ _ (cm_prev_at _ _ _ _ _ Hc)).
  pose proof Hc as (_ & Hp & _). rewrite at_pos_prev_before, Hb; done.
Qed.

(** The offset, one operation at a time. *)
Lemma run_op_offset {T} (h : heap T) c ps xs pos (o : op T) :
  heap_ok h -> cursor_repr h c ps xs pos -> CursorMut.current_len c = upto pos ->
  (pos = None -> ghost_safe o = true) ->
  exists c' h' ps' xs' pos',
    run_op o c h = inr (c', h') /\ heap_ok h' /\ cursor_repr h' c' ps' xs' pos' /\
    CursorMut.current_len c' = upto pos' /\ CursorMut.current_len c' <= len (CursorMut.list c').
Proof.
  intros Hok Hc Hoff Hg.
  assert (Hrange : forall (h' : heap T) c' ps' xs' pos', cursor_repr h' c' ps' xs' pos' ->
            CursorMut.current_len c' = upto pos' -> CursorMut.current_len c' <= len (CursorMut.list c')).
  { intros h' c' ps' xs' pos' ((_ & _ & _ & _ & Hl') & Hp' & _) ->. rewrite Hl'.
    destruct pos'; simpl in *; lia. }
  pose proof Hc as ((Hnd & Hs & _) & Hpos & _). pose proof (dseg_length _ _ _ _ _ Hs) as Hlx.
  destruct o as [m|x|x| |]; simpl.
  - destruct (run_moves_repr [m] h c ps xs pos Hc Hoff) as (c' & pos' & E & Hc' & Ho').
    exists c', h, ps, xs, pos'. split; [done|split; [done|split; [done|split; [done|]]]]. by apply (Hrange h c' ps xs pos').
  - destruct (insert_repr h c ps xs pos x Hok Hc) as (c' & h' & E & Hok' & Hc' & Ho').
    exists c', h'; do 2 eexists; exists pos. rewrite Ho'. split; [done|split; [done|split; [exact Hc'|split; [done|]]]].
    rewrite <-Ho'. apply (Hrange _ _ _ _ _ Hc'). by rewrite Ho'.
  - destruct pos as [i|]; [|by specialize (Hg eq_refl)].
    destruct (insert_before_repr h c ps xs (Some i) x Hok Hc) as (c' & h' & E & Hok' & Hc' & Ho' & _).
    exists c', h'; do 2 eexists; exists (Some (S i)). simpl in Hc'.
    assert (Hl' : CursorMut.current_len c' = upto (Some (S i))).
    { rewrite Ho', Hoff. simpl. unfold pos_ok in Hpos. rewrite Nat.mod_small; lia. }
    split; [done|split; [done|split; [done|split; [done|]]]]. apply (Hrange _ _ _ _ _ Hc' Hl').
  - destruct (decide (after_index pos = length ps)) as [Heq|Hne].
    + exists c, h, ps, xs, pos. rewrite (bind_ok _ _ _ _ _ (pop_none h c ps xs pos Hc Heq)).
      split; [done|split; [done|split; [done|split; [done|]]]]. apply (Hrange _ _ _ _ _ Hc Hoff).
    + pose proof (after_index_le ps pos Hpos) as Hle.
      set (j := after_index pos) in *.
      destruct (lookup_lt_is_Some_2 ps j ltac:(lia)) as [p Hp].
      destruct (lookup_lt_is_Some_2 xs j ltac:(lia)) as [x Hx].
      pose proof Hc as Hc'.
      rewrite <-(take_drop_middle ps j p Hp), <-(take_drop_middle xs j x Hx) in Hc'.
      destruct (pop_repr_split h c (take j ps) p (drop (S j) ps) (take j xs) x (drop (S j) xs)
                  pos Hok Hc' ltac:(rewrite length_take; lia) ltac:(rewrite !length_take; lia))
        as (c2 & h2 & E & Hok2 & Hc2 & Ho2 & _).
      rewrite (bind_ok _ _ _ _ _ E). simpl.
      assert (Hl2 : CursorMut.current_len c2 = upto pos).
      { rewrite Ho2, Hoff. apply Nat.mod_small. rewrite length_take, length_drop.
        change (upto pos) with j. lia. }
      exists c2, h2; do 2 eexists; exists pos. split; [done|split; [done|split; [done|split; [done|]]]]. apply (Hrange _ _ _ _ _ Hc2 Hl2).
  - destruct pos as [i|]; [|by specialize (Hg eq_refl)].
    destruct i as [|j].
    + exists c, h, ps, xs, (Some 0).
      rewrite (bind_ok _ _ _ _ _ (pop_prev_none h c ps xs (Some 0) Hc eq_refl)).
      split; [done|split; [done|split; [done|split; [done|]]]]. apply (Hrange _ _ _ _ _ Hc Hoff).
    + simpl in Hpos.
      destruct (lookup_lt_is_Some_2 ps j ltac:(lia)) as [p Hp].
      destruct (lookup_lt_is_Some_2 xs j ltac:(lia)) as [x Hx].
      pose proof Hc as Hc'.
      rewrite <-(take_drop_middle ps j p Hp), <-(take_drop_middle xs j x Hx) in Hc'.
      destruct (pop_prev_repr_split h c (take j ps) p (drop (S j) ps) (take j xs) x
                  (drop (S j) xs) (Some (S j)) Hok Hc' ltac:(simpl; rewrite length_take; lia)
                  ltac:(rewrite !length_take; lia))
        as (c2 & h2 & E & Hok2 & Hc2 & Ho2).
      rewrite (bind_ok _ _ _ _ _ E). simpl.
      assert (Hl2 : CursorMut.current_len c2 = upto (Some j)).
      { rewrite Ho2, Hoff. rewrite length_take, length_drop. simpl.
        symmetry. apply (Nat.mod_unique _ _ 1); lia. }
      exists c2, h2; do 2 eexists; exists (Some j). simpl in Hc2. split; [done|split; [done|split; [done|split; [done|]]]].
      apply (Hrange _ _ _ _ _ Hc2 Hl2).
Qed.

(** * The tracked offset: the claims *)

(** C4 (amended): a fresh cursor's offset is 0, the number of elements at or
    before the ghost.  After any move, [insert] or [pop] at any position, and
    after [insert_before] or [pop_prev] with the cursor on a node, on a
    well-formed list whose cursor offset equals the number of elements at and
    before the cursor (0 at the ghost, [i + 1] on the node of index [i]), the
    list is still well formed and the offset is again that number, so it lies
    in [0, len]. *)
Theorem offset_invariant :
  (forall (T : Type) (h : heap T) l ps xs,
     list_repr h l ps xs ->
     cursor_repr h (cursor_mut l) ps xs None /\ CursorMut.current_len (cursor_mut l) = upto None) /\
  (forall (T : Type) (h : heap T) c ps xs pos (o : op T),
     heap_ok h -> cursor_repr h c ps xs pos -> CursorMut.current_len c = upto pos ->
     (pos = None -> ghost_safe o = true) ->
     exists c' h' ps' xs' pos',
       run_op o c h = inr (c', h') /\ heap_ok h' /\ cursor_repr h' c' ps' xs' pos' /\
       CursorMut.current_len c' = upto pos' /\
       CursorMut.current_len c' <= len (CursorMut.list c')).
Proof.
  split.
  - intros T h l ps xs Hl. split; [by apply cursor_mut_repr|done].
  - intros T h c ps xs pos o. apply run_op_offset.
Qed.

Lemma demo_heap_ok : heap_ok demo_heap.
Proof.
  intros p Hp. unfold demo_heap in *. cbn [fresh] in Hp.
  destruct p as [p|p|]; [|destruct p as [p|p|]|];
    try (destruct p as [p|p|]); try reflexivity; simpl in Hp; lia.
Qed.

Lemma offset_invariant_witness :
  (list_repr demo_heap demo_list demo_ptrs [0; 1; 2] /\
   cursor_repr demo_heap (cursor_mut demo_list) demo_ptrs [0; 1; 2] None /\
   CursorMut.current_len (cursor_mut demo_list) = upto None) /\
  (heap_ok demo_heap /\
   cursor_repr demo_heap (CursorMut.mk (Some 2%positive) demo_list 2) demo_ptrs [0; 1; 2] (Some 1) /\
   CursorMut.current_len (CursorMut.mk (Some 2%positive) demo_list 2) = upto (Some 1) /\
   exists c' h' ps' xs' pos',
     run_op (OInsertBefore 7) (CursorMut.mk (Some 2%positive) demo_list 2) demo_heap = inr (c', h') /\
     heap_ok h' /\ cursor_repr h' c' ps' xs' pos' /\
     CursorMut.current_len c' = upto pos' /\ CursorMut.current_len c' <= len (CursorMut.list c')).
Proof.
  assert (Hc : cursor_repr demo_heap (CursorMut.mk (Some 2%positive) demo_list 2) demo_ptrs
                 [0; 1; 2] (Some 1)).
  { split; [exact demo_repr|]. split; [simpl; lia|reflexivity]. }
  split.
  - split; [exact demo_repr|]. apply (proj1 offset_invariant nat demo_heap demo_list demo_ptrs).
    exact demo_repr.
  - split; [exact demo_heap_ok|]. split; [exact Hc|]. split; [reflexivity|].
    apply (proj2 offset_invariant nat demo_heap _ demo_ptrs [0; 1; 2] (Some 1) (OInsertBefore 7)
             demo_heap_ok Hc eq_refl).
    intros H; discriminate H.
Defined.

(** C4: the offset does not count the elements strictly before the cursor:
    one [move_next] from the ghost of [[0; 1; 2]] puts the cursor on the head
    node, which has no previous node, with the offset at 1. *)
Lemma offset_strictly_before_counterexample :
  run_moves [Next] (cursor_mut demo_list) demo_heap =
    inr (CursorMut.mk (Some 1%positive) demo_list 1, demo_heap) /\
  read_prev 1%positive demo_heap = inr (None, demo_heap).
Proof. split; vm_compute; reflexivity. Qed.

(** C5: the length counter can disagree with the nodes: on a new list, two
    [insert_before] on its ghost cursor set the offset to 2 instead of 0;
    after [move_next] the cursor is on the head with offset 0, and [split]
    leaves a kept list of one node ([[0]]) whose length counter is 0 and
    returns a list of one node ([[1]]) whose length counter is 2. *)
Theorem split_length_counter_drift :
  run_fresh (let! r := scenario_split_after_inserts in
             let! a := fmt (fst r) in
             let! b := fmt (snd r) in
             ret (len (fst r), a, len (snd r), b)) = Some (0, [0], 2, [1]).
Proof. vm_compute. reflexivity. Qed.

(** C6: [insert_list] releases the nodes it splices in: [[0]] with the
    cursor on [0] receives [[5]]; the received node, now the receiving list's
    tail, is no longer allocated, so printing or dropping the receiving list
    reads a released node.  With the cursor at the ghost of [[0; 1]] the
    release of the argument walks on into the receiving list and the length
    subtraction overflows. *)
Theorem insert_list_releases_spliced :
  match scenario_insert_list empty_heap with
  | inr (c, h) =>
      tail (CursorMut.list c) = Some 2%positive /\ cells h !! 2%positive = None /\
      fmt (CursorMut.list c) h = inl UseAfterFree /\
      CursorMut.drop (CursorMut.list c) h = inl UseAfterFree
  | inl _ => False
  end /\
  scenario_insert_list_ghost empty_heap = inl Overflow.
Proof. vm_compute. repeat split; reflexivity. Qed.

(** C9: [split] of [[0; 1]] after [0] gives [[0]] and [[1]], but splicing
    [[1]] back with [insert_list] on a cursor at [0] releases its node, and
    printing the rejoined list reads that released node instead of giving
    [[0; 1]]. *)
Theorem split_rejoin_use_after_free :
  match scenario_split_rejoin empty_heap with
  | inr ((kept, returned, c), h) =>
      kept = [0] /\ returned = [1] /\ fmt (CursorMut.list c) h = inl UseAfterFree
  | inl _ => False
  end.
Proof. vm_compute. repeat split; reflexivity. Qed.

(** * Further properties of the list and its cursors *)
Section Reading.
Context {T : Type}.
Implicit Types (h : heap T) (ps : list ptr) (xs : list T).

Lemma element_at_idx h l ps xs j :
  list_repr h l ps xs -> Cursor.element_at (ps !! j) h = inr (xs !! j, h).
Proof.
  intros Hl. pose proof Hl as (_ & Hs & _). pose proof (dseg_length _ _ _ _ _ Hs) as Hlx.
  destruct (ps !! j) as [p|] eqn:Hp.
  - by apply (element_at_ok h l ps xs j p Hl Hp).
  - apply lookup_ge_None_1 in Hp. rewrite (lookup_ge_None_2 xs j) by lia. done.
Qed.

Lemma last_take_idx ps b :
  b <= length ps -> last (take b ps) = match b with O => None | S k => ps !! k end.
Proof.
  intros Hb. destruct b as [|k]; [done|].
  destruct (lookup_lt_is_Some_2 ps k ltac:(lia)) as [p Hp]. rewrite Hp. by apply last_take_S.
Qed.

Lemma before_index_le ps pos : pos_ok (length ps) pos -> before_index (length ps) pos <= length ps.
Proof. destruct pos; simpl; lia. Qed.

(** The pointers a read-only cursor reaches with [next] and [prev]. *)
Lemma cursor_next_at h l ps xs pos :
  list_repr h l ps xs -> pos_ok (length ps) pos ->
  Cursor.next (Cursor.mk (at_pos ps pos) l) h = inr (ps !! after_index pos, h).
Proof.
  intros Hl Hp. unfold Cursor.next. cbn [Cursor.current Cursor.list].
  rewrite (step_next h l _ ps xs pos Hl Hp eq_refl), at_pos_next_after.
  by rewrite lookup_drop, Nat.add_0_r.
Qed.

Lemma cursor_prev_at h l ps xs pos :
  list_repr h l ps xs -> pos_ok (length ps) pos ->
  Cursor.prev (Cursor.mk (at_pos ps pos) l) h =
    inr (match before_index (length ps) pos with O => None | S k => ps !! k end, h).
Proof.
  intros Hl Hp. unfold Cursor.prev. cbn [Cursor.current Cursor.list].
  rewrite (step_prev h l _ ps xs pos Hl Hp eq_refl), at_pos_prev_before by done.
  rewrite last_take_idx; [done|by apply before_index_le].
Qed.

(** What a read-only cursor at [pos] reads: its own element, the one after
    it and the one before it. *)
Lemma cursor_reads h l ps xs pos :
  list_repr h l ps xs -> pos_ok (length ps) pos ->
  Cursor.current_elem (Cursor.mk (at_pos ps pos) l) h =
    inr (match pos with None => None | Some i => xs !! i end, h) /\
  Cursor.peek (Cursor.mk (at_pos ps pos) l) h = inr (xs !! after_index pos, h) /\
  Cursor.peek_before (Cursor.mk (at_pos ps pos) l) h =
    inr (match before_index (length ps) pos with O => None | S k => xs !! k end, h).
Proof.
  intros Hl Hp. split; [|split].
  - unfold Cursor.current_elem. cbn [Cursor.current].
    destruct pos as [i|]; [|done]. apply (element_at_idx h l ps xs i Hl).
  - unfold Cursor.peek. rewrite (bind_ok _ _ _ _ _ (cursor_next_at h l ps xs pos Hl Hp)).
    apply (element_at_idx h l ps xs _ Hl).
  - unfold Cursor.peek_before. rewrite (bind_ok _ _ _ _ _ (cursor_prev_at h l ps xs pos Hl Hp)).
    destruct (before_index (length ps) pos) as [|k]; [done|].
    apply (element_at_idx h l ps xs k Hl).
Qed.

Lemma list_len_size h l ps xs : list_repr h l ps xs -> length ps <= size (cells h).
Proof.
  intros (Hnd & Hs & _). rewrite <-size_dom, <-(size_list_to_set (C:=gset ptr) ps Hnd).
  apply subseteq_size. intros r Hr. apply elem_of_list_to_set in Hr.
  apply elem_of_dom. by apply (dseg_in _ _ _ _ _ _ Hs).
Qed.

Lemma fmt_loop_from h l ps xs fuel i :
  list_repr h l ps xs -> i <= length ps -> length ps - i < fuel ->
  fmt_loop fuel (Cursor.mk (ps !! i) l) h = inr (drop i xs, h).
Proof.
  intros Hl. pose proof Hl as (_ & Hs & _). pose proof (dseg_length _ _ _ _ _ Hs) as Hlx.
  revert i; induction fuel as [|f IH]; intros i Hi Hf; [lia|].
  cbn [fmt_loop]. unfold Cursor.current_elem. cbn [Cursor.current].
  rewrite (bind_ok _ _ _ _ _ (element_at_idx h l ps xs i Hl)). cbv beta.
  destruct (xs !! i) as [x|] eqn:Hx.
  - assert (Hlt : i < length ps) by (apply lookup_lt_Some in Hx; lia).
    change (ps !! i) with (at_pos ps (Some i)).
    rewrite (bind_ok _ _ _ _ _ (cursor_move_next h l ps xs (Some i) Hl Hlt)). cbv beta.
    rewrite at_pos_next.
    rewrite (bind_ok _ _ _ _ _ (IH (S i) ltac:(lia) ltac:(lia))). cbv beta.
    unfold ret. by rewrite (drop_S xs x i Hx).
  - apply lookup_ge_None_1 in Hx. unfold ret. by rewrite drop_ge.
Qed.

Lemma fmt_repr h l ps xs : list_repr h l ps xs -> fmt l h = inr (xs, h).
Proof.
  intros Hl. pose proof (list_len_size h l ps xs Hl) as Hsz.
  unfold fmt. change (cursor l) with (Cursor.mk (at_pos ps None) l).
  rewrite (bind_ok _ _ _ _ _ (cursor_move_next h l ps xs None Hl I)). cbv beta.
  rewrite at_pos_next.
  by rewrite (fmt_loop_from h l ps xs (S (size (cells h))) 0 Hl ltac:(lia) ltac:(lia)).
Qed.
End Reading.

Lemma pos_prev_next n pos : pos_ok n pos -> pos_prev n (pos_next n pos) = pos.
Proof.
  destruct pos as [i|]; simpl; intros Hi.
  - destruct (S i <? n) eqn:E; simpl; [done|].
    apply Nat.ltb_ge in E. destruct n as [|k]; [lia|]. f_equal. lia.
  - by destruct n.
Qed.

Lemma pos_next_prev n pos : pos_ok n pos -> pos_next n (pos_prev n pos) = pos.
Proof.
  destruct pos as [[|j]|]; simpl; intros Hi.
  - destruct n; [lia|done].
  - destruct (S j <? n) eqn:E; [done|]. apply Nat.ltb_ge in E. lia.
  - destruct n as [|k]; [done|]. simpl. destruct (S k <? S k) eqn:E; [|done].
    apply Nat.ltb_lt in E. lia.
Qed.

Lemma upto_le n pos : pos_ok n pos -> upto pos <= n.
Proof. destruct pos; simpl; lia. Qed.

Lemma upto_inj n p q : pos_ok n p -> pos_ok n q -> upto p = upto q -> p = q.
Proof. destruct p, q; simpl; intros; try lia; try done. f_equal. lia. Qed.

(** An offset in range comes back after [inc_len] then [dec_len], or the
    reverse. *)
Lemma mod_step_back n k : k <= n -> ((k + 1) mod (n + 1) + n) mod (n + 1) = k.
Proof.
  intros Hk. rewrite Nat.Div0.add_mod_idemp_l.
  replace (k + 1 + n) with (k + 1 * (n + 1)) by lia.
  rewrite Nat.Div0.mod_add. apply Nat.mod_small. lia.
Qed.

Lemma mod_step_fwd n k : k <= n -> ((k + n) mod (n + 1) + 1) mod (n + 1) = k.
Proof.
  intros Hk. rewrite Nat.Div0.add_mod_idemp_l.
  replace (k + n + 1) with (k + 1 * (n + 1)) by lia.
  rewrite Nat.Div0.mod_add. apply Nat.mod_small. lia.
Qed.

Lemma cursor_eta (c : CursorMut.t) :
  CursorMut.mk (CursorMut.current c) (CursorMut.list c) (CursorMut.current_len c) = c.
Proof. by destruct c. Qed.

Lemma list_repr_fields {T} (h1 h2 : heap T) l1 l2 ps (xs1 xs2 : list T) :
  list_repr h1 l1 ps xs1 -> list_repr h2 l2 ps xs2 -> l1 = l2.
Proof.
  intros (_ & _ & H1 & T1 & L1) (_ & _ & H2 & T2 & L2).
  destruct l1, l2; simpl in *. f_equal; congruence.
Qed.

Section Composition.
Context {T : Type}.
Implicit Types (h : heap T) (ps : list ptr) (xs : list T).

Lemma move_next_cursor_repr h c ps xs pos :
  cursor_repr h c ps xs pos ->
  cursor_repr h (CursorMut.mk (at_pos ps (pos_next (length ps) pos)) (CursorMut.list c)
                   ((CursorMut.current_len c + 1) mod (length ps + 1)))
    ps xs (pos_next (length ps) pos).
Proof. intros (Hl & Hp & _). split; [done|]. split; [apply pos_ok_next|done]. Qed.

Lemma move_prev_cursor_repr h c ps xs pos :
  cursor_repr h c ps xs pos ->
  cursor_repr h (CursorMut.mk (at_pos ps (pos_prev (length ps) pos)) (CursorMut.list c)
                   ((CursorMut.current_len c + length ps) mod (length ps + 1)))
    ps xs (pos_prev (length ps) pos).
Proof. intros (Hl & Hp & _). split; [done|]. split; [by apply pos_ok_prev|done]. Qed.

(** [k] calls of [move_next]: the position advances [k] steps around the
    cycle of the ghost and the [length ps] nodes, and so does the offset. *)
Lemma move_next_n_repr h c ps xs pos k :
  cursor_repr h c ps xs pos -> CursorMut.current_len c <= length ps ->
  exists pos', pos_ok (length ps) pos' /\
    upto pos' = (upto pos + k) mod (length ps + 1) /\
    move_next_n k c h =
      inr (CursorMut.mk (at_pos ps pos') (CursorMut.list c)
             ((CursorMut.current_len c + k) mod (length ps + 1)), h).
Proof.
  revert c pos; induction k as [|k IH]; intros c pos Hc Hcl.
  - exists pos. pose proof Hc as (_ & Hp & Hcur). pose proof (upto_le _ _ Hp).
    rewrite !Nat.add_0_r, !Nat.mod_small by lia.
    split; [done|]. split; [done|]. simpl. rewrite <-Hcur. by rewrite cursor_eta.
  - cbn [move_next_n]. rewrite (bind_ok _ _ _ _ _ (move_next_repr _ _ _ _ _ Hc)).
    cbv beta. pose proof Hc as (_ & Hp & _).
    destruct (IH _ _ (move_next_cursor_repr h c ps xs pos Hc)
                ltac:(cbn [CursorMut.current_len]; pose proof (Nat.mod_upper_bound (CursorMut.current_len c + 1) (length ps + 1)); lia))
      as (pos' & Hp' & Hu' & E).
    exists pos'. split; [done|]. split.
    + rewrite Hu', <-(upto_next _ _ Hp), Nat.Div0.add_mod_idemp_l. f_equal. lia.
    + rewrite E. cbn [CursorMut.current_len CursorMut.list].
      rewrite Nat.Div0.add_mod_idemp_l. do 4 f_equal. lia.
Qed.
End Composition.

Section Release.
Context {T : Type}.
Implicit Types (h : heap T) (ps : list ptr) (xs : list T).

(** The loop of [Drop] from the ghost: every node of the list is released,
    and no other cell is touched. *)
Lemma pop_all_ghost h c ps xs fuel :
  heap_ok h -> cursor_repr h c ps xs None -> length ps < fuel ->
  exists h', CursorMut.pop_all fuel c h = inr (tt, h') /\ heap_ok h' /\
    (forall r, r ∈ ps -> cells h' !! r = None) /\
    (forall r, r ∉ ps -> cells h' !! r = cells h !! r).
Proof.
  revert h c xs fuel; induction ps as [|p ps IH]; intros h c xs fuel Hok Hc Hf;
    (destruct fuel as [|f]; [simpl in Hf; lia|]); cbn [CursorMut.pop_all].
  - rewrite (bind_ok _ _ _ _ _ (pop_none h c [] xs None Hc eq_refl)). cbv beta iota.
    exists h. split; [done|]. split; [done|]. split; [|done].
    intros r Hr. by apply not_elem_of_nil in Hr.
  - pose proof Hc as ((Hnd & Hs & _) & _). destruct xs as [|x xs]; [done|].
    apply NoDup_cons in Hnd as [Hp Hnd].
    destruct (pop_repr_split h c [] p ps [] x xs None Hok Hc eq_refl eq_refl)
      as (c1 & h1 & E & Hok1 & Hc1 & _ & Hp1 & Hfr1).
    rewrite (bind_ok _ _ _ _ _ E). cbv beta iota.
    destruct (IH h1 c1 xs f Hok1 Hc1 ltac:(simpl in Hf; lia)) as (h' & E' & Hok' & Hin' & Hout').
    exists h'. split; [done|]. split; [done|]. split.
    + intros r Hr. apply elem_of_cons in Hr as [->|Hr]; [|by apply Hin'].
      by rewrite (Hout' p Hp).
    + intros r Hr. apply not_elem_of_cons in Hr as [Hrp Hr].
      rewrite (Hout' r Hr). apply Hfr1. simpl. by apply not_elem_of_cons.
Qed.

Lemma drop_repr h l ps xs :
  heap_ok h -> list_repr h l ps xs ->
  exists h', CursorMut.drop l h = inr (tt, h') /\ heap_ok h' /\
    (forall r, r ∈ ps -> cells h' !! r = None) /\
    (forall r, r ∉ ps -> cells h' !! r = cells h !! r).
Proof.
  intros Hok Hl. unfold CursorMut.drop.
  apply (pop_all_ghost h _ ps xs); [done|by apply cursor_mut_repr|].
  pose proof (list_len_size h l ps xs Hl). lia.
Qed.

(** A [CursorMut] reads what the read-only cursor [as_cursor] gives. *)
Lemma cursor_mut_as_cursor h c :
  CursorMut.current_elem c h = Cursor.current_elem (CursorMut.as_cursor c) h /\
  CursorMut.peek c h = Cursor.peek (CursorMut.as_cursor c) h /\
  CursorMut.peek_before c h = Cursor.peek_before (CursorMut.as_cursor c) h.
Proof. done. Qed.

Lemma cursor_mut_reads_at h c ps xs pos :
  cursor_repr h c ps xs pos ->
  CursorMut.current_elem c h = inr (match pos with None => None | Some i => xs !! i end, h) /\
  CursorMut.peek c h = inr (xs !! after_index pos, h) /\
  CursorMut.peek_before c h =
    inr (match before_index (length ps) pos with O => None | S k => xs !! k end, h).
Proof.
  intros (Hl & Hp & Hcur). destruct (cursor_mut_as_cursor h c) as (-> & -> & ->).
  unfold CursorMut.as_cursor. rewrite Hcur. by apply (cursor_reads h _ ps xs pos).
Qed.
End Release.

(** * Properties read off the code *)

(** [impl Debug for LinkedList] prints the elements of a well-formed list in
    order, from the head to the tail, and changes nothing in the heap. *)
Theorem debug_prints_elements {T} (h : heap T) l ps (xs : list T) :
  list_repr h l ps xs -> fmt l h = inr (xs, h).
Proof. apply fmt_repr. Qed.

(** [FromIterator::from_iter] gives a list whose [len] is the number of
    elements of the sequence and which [Debug] prints as that sequence. *)
Theorem from_iter_len_debug {T} (s : list T) (h : heap T) :
  heap_ok h ->
  exists l h', from_iter s h = inr (l, h') /\ heap_ok h' /\ len l = length s /\
    fmt l h' = inr (s, h').
Proof.
  intros Hok. destruct (from_iter_repr h s Hok) as (l & h' & ps & E & Hok' & Hl).
  exists l, h'. split; [done|]. split; [done|]. split.
  - pose proof Hl as (_ & Hs & _ & _ & Hlen). rewrite Hlen. apply (dseg_length _ _ _ _ _ Hs).
  - apply (fmt_repr h' l ps s Hl).
Qed.

(** A read-only [Cursor] on a well-formed list reads, with [current], the
    element it is on (none at the ghost); with [peek], the element after it
    (the head from the ghost, none from the tail); with [peek_before], the
    element before it (the tail from the ghost, none from the head).  It
    changes nothing in the heap. *)
Theorem cursor_current_peek {T} (h : heap T) l ps (xs : list T) pos :
  list_repr h l ps xs -> pos_ok (length ps) pos ->
  Cursor.current_elem (Cursor.mk (at_pos ps pos) l) h =
    inr (match pos with None => None | Some i => xs !! i end, h) /\
  Cursor.peek (Cursor.mk (at_pos ps pos) l) h = inr (xs !! after_index pos, h) /\
  Cursor.peek_before (Cursor.mk (at_pos ps pos) l) h =
    inr (match before_index (length ps) pos with O => None | S k => xs !! k end, h).
Proof. apply cursor_reads. Qed.

(** [CursorMut::current], [peek] and [peek_before] read the element at,
    after and before the cursor, as the read-only cursor given by
    [as_cursor] does. *)
Theorem cursor_mut_current_peek {T} (h : heap T) c ps (xs : list T) pos :
  cursor_repr h c ps xs pos ->
  CursorMut.current_elem c h = inr (match pos with None => None | Some i => xs !! i end, h) /\
  CursorMut.peek c h = inr (xs !! after_index pos, h) /\
  CursorMut.peek_before c h =
    inr (match before_index (length ps) pos with O => None | S k => xs !! k end, h) /\
  Cursor.current_elem (CursorMut.as_cursor c) h = CursorMut.current_elem c h /\
  Cursor.peek (CursorMut.as_cursor c) h = CursorMut.peek c h /\
  Cursor.peek_before (CursorMut.as_cursor c) h = CursorMut.peek_before c h.
Proof.
  intros Hc. destruct (cursor_mut_reads_at h c ps xs pos Hc) as (H1 & H2 & H3).
  destruct (cursor_mut_as_cursor h c) as (E1 & E2 & E3).
  split; [done|]. split; [done|]. split; [done|]. by rewrite E1, E2, E3.
Qed.

(** [CursorMut::move_next] followed by [move_prev], or [move_prev] followed
    by [move_next], gives back the same cursor (node and offset) when the
    offset is at most [len]; the heap is unchanged. *)
Theorem move_next_prev_inverse {T} (h : heap T) c ps (xs : list T) pos :
  cursor_repr h c ps xs pos -> CursorMut.current_len c <= len (CursorMut.list c) ->
  (let! c1 := CursorMut.move_next c in CursorMut.move_prev c1) h = inr (c, h) /\
  (let! c1 := CursorMut.move_prev c in CursorMut.move_next c1) h = inr (c, h).
Proof.
  intros Hc Hcl. pose proof Hc as ((_ & _ & _ & _ & Hlen) & Hp & Hcur). rewrite Hlen in Hcl.
  split.
  - rewrite (bind_ok _ _ _ _ _ (move_next_repr _ _ _ _ _ Hc)).
    rewrite (move_prev_repr _ _ _ _ _ (move_next_cursor_repr _ _ _ _ _ Hc)).
    cbn [CursorMut.list CursorMut.current_len].
    rewrite pos_prev_next, mod_step_back, <-Hcur by done. by rewrite cursor_eta.
  - rewrite (bind_ok _ _ _ _ _ (move_prev_repr _ _ _ _ _ Hc)).
    rewrite (move_next_repr _ _ _ _ _ (move_prev_cursor_repr _ _ _ _ _ Hc)).
    cbn [CursorMut.list CursorMut.current_len].
    rewrite pos_next_prev, mod_step_fwd, <-Hcur by done. by rewrite cursor_eta.
Qed.

(** The positions of a [CursorMut] form a cycle: [len + 1] calls of
    [move_next] (the nodes and the ghost) bring the cursor back to where it
    was, with the same offset when the offset is at most [len]. *)
Theorem move_next_cycle {T} (h : heap T) c ps (xs : list T) pos :
  cursor_repr h c ps xs pos -> CursorMut.current_len c <= len (CursorMut.list c) ->
  move_next_n (S (len (CursorMut.list c))) c h = inr (c, h).
Proof.
  intros Hc Hcl. pose proof Hc as ((_ & _ & _ & _ & Hlen) & Hp & Hcur). rewrite Hlen in *.
  destruct (move_next_n_repr h c ps xs pos (S (length ps)) Hc Hcl) as (pos' & Hp' & Hu & ->).
  assert (Hk : forall k, k <= length ps -> (k + S (length ps)) mod (length ps + 1) = k).
  { intros k Hk. replace (k + S (length ps)) with (k + 1 * (length ps + 1)) by lia.
    rewrite Nat.Div0.mod_add. apply Nat.mod_small. lia. }
  rewrite Hk in Hu by (by apply upto_le).
  rewrite (upto_inj _ _ _ Hp' Hp Hu), Hk, <-Hcur by done. by rewrite cursor_eta.
Qed.

(** [insert x] followed by [pop] returns [Some x] and gives back the same
    cursor (its list record, node and offset) over the same nodes and
    elements, when the offset is at most [len]. *)
Theorem insert_then_pop {T} (h : heap T) c ps (xs : list T) pos (x : T) :
  heap_ok h -> cursor_repr h c ps xs pos -> CursorMut.current_len c <= len (CursorMut.list c) ->
  exists h', (let! c1 := CursorMut.insert x c in CursorMut.pop c1) h = inr ((c, Some x), h') /\
    heap_ok h' /\ cursor_repr h' c ps xs pos.
Proof.
  intros Hok Hc Hcl. pose proof Hc as ((Hnd & Hs & _ & _ & Hlen) & Hp & Hcur). rewrite Hlen in Hcl.
  pose proof (dseg_length _ _ _ _ _ Hs) as Hlx. pose proof (after_index_le ps pos Hp) as Hk.
  destruct (insert_repr h c ps xs pos x Hok Hc) as (c1 & h1 & E1 & Hok1 & Hc1 & Hcl1).
  rewrite (bind_ok _ _ _ _ _ E1).
  destruct (pop_repr_split h1 c1 (take (after_index pos) ps) (fresh h) (drop (after_index pos) ps)
              (take (after_index pos) xs) x (drop (after_index pos) xs) pos Hok1 Hc1
              ltac:(rewrite length_take; lia) ltac:(rewrite !length_take; lia))
    as (c2 & h2 & E2 & Hok2 & Hc2 & Hcl2 & _).
  rewrite !take_drop in Hc2. rewrite !length_take, length_drop in Hcl2.
  replace (after_index pos `min` length ps + (length ps - after_index pos) + 1)
    with (length ps + 1) in Hcl2 by lia.
  assert (c2 = c) as ->.
  { rewrite <-(cursor_eta c2), <-(cursor_eta c). pose proof Hc2 as (Hl2 & _ & Hcur2).
    rewrite (list_repr_fields h2 h _ _ ps xs xs Hl2 (proj1 Hc)), Hcur2, Hcur, Hcl2, Hcl1.
    by rewrite Nat.mod_small by lia. }
  exists h2. done.
Qed.

(** [insert_before x] followed by [pop_prev] returns [Some x] and gives back
    the same cursor (its list record, node and offset) over the same nodes
    and elements, when the offset is at most [len]; this holds at the ghost
    too, where the two offset updates cancel out. *)
Theorem insert_before_then_pop_prev {T} (h : heap T) c ps (xs : list T) pos (x : T) :
  heap_ok h -> cursor_repr h c ps xs pos -> CursorMut.current_len c <= len (CursorMut.list c) ->
  exists h',
    (let! c1 := CursorMut.insert_before x c in CursorMut.pop_prev c1) h = inr ((c, Some x), h') /\
    heap_ok h' /\ cursor_repr h' c ps xs pos.
Proof.
  intros Hok Hc Hcl. pose proof Hc as ((Hnd & Hs & _ & _ & Hlen) & Hp & Hcur). rewrite Hlen in Hcl.
  pose proof (dseg_length _ _ _ _ _ Hs) as Hlx. pose proof (before_index_le ps pos Hp) as Hk.
  destruct (insert_before_repr h c ps xs pos x Hok Hc) as (c1 & h1 & E1 & Hok1 & Hc1 & Hcl1 & _).
  rewrite (bind_ok _ _ _ _ _ E1).
  set (k := before_index (length ps) pos) in *.
  assert (Hb : before_index (length (take k ps ++ fresh h :: drop k ps)) (option_map S pos) =
               S (length (take k ps))).
  { rewrite length_app. cbn [length]. rewrite length_take, length_drop. subst k.
    destruct pos as [i|]; simpl in *; lia. }
  destruct (pop_prev_repr_split h1 c1 (take k ps) (fresh h) (drop k ps) (take k xs) x (drop k xs)
              (option_map S pos) Hok1 Hc1 Hb ltac:(rewrite !length_take; lia))
    as (c2 & h2 & E2 & Hok2 & Hc2 & Hcl2).
  rewrite !take_drop in Hc2. rewrite !length_take, length_drop in Hcl2.
  replace (k `min` length ps + (length ps - k)) with (length ps) in Hcl2 by lia.
  assert (Hpos : option_map pred (option_map S pos) = pos) by (by destruct pos).
  rewrite Hpos in Hc2.
  assert (c2 = c) as ->.
  { rewrite <-(cursor_eta c2), <-(cursor_eta c). pose proof Hc2 as (Hl2 & _ & Hcur2).
    rewrite (list_repr_fields h2 h _ _ ps xs xs Hl2 (proj1 Hc)), Hcur2, Hcur, Hcl2, Hcl1.
    rewrite (Nat.mod_small _ (length ps + 2)) by lia.
    replace (CursorMut.current_len c + 1 + length ps)
      with (CursorMut.current_len c + 1 * (length ps + 1)) by lia.
    by rewrite Nat.Div0.mod_add, Nat.mod_small by lia. }
  exists h2. done.
Qed.

(** [pop_prev] on a well-formed list returns the element right before the
    cursor (the last one from the ghost); when there is none (the cursor on
    the head, or an empty list) it returns [None] and changes nothing;
    otherwise that node leaves the list and the cursor stays on its node,
    whose index drops by one. *)
Theorem pop_prev_general {T} (h : heap T) c ps (xs : list T) pos :
  heap_ok h -> cursor_repr h c ps xs pos ->
  exists c' r h', CursorMut.pop_prev c h = inr ((c', r), h') /\
    r = match before_index (length ps) pos with O => None | S k => xs !! k end /\
    (r = None -> c' = c /\ h' = h) /\
    (forall k, before_index (length ps) pos = S k ->
       heap_ok h' /\ cursor_repr h' c' (delete k ps) (delete k xs) (option_map pred pos)).
Proof.
  intros Hok Hc. pose proof Hc as ((_ & Hs & _) & Hpos & _).
  pose proof (dseg_length _ _ _ _ _ Hs) as Hlx.
  pose proof (before_index_le ps pos Hpos) as Hle.
  destruct (before_index (length ps) pos) as [|k] eqn:Hb.
  - exists c, None, h. rewrite (pop_prev_none h c ps xs pos Hc Hb). done.
  - destruct (lookup_lt_is_Some_2 ps k ltac:(lia)) as [p Hp].
    destruct (lookup_lt_is_Some_2 xs k ltac:(lia)) as [x Hx].
    pose proof Hc as Hc'.
    rewrite <-(take_drop_middle ps k p Hp), <-(take_drop_middle xs k x Hx) in Hc'.
    assert (Hb' : before_index (length (take k ps ++ p :: drop (S k) ps)) pos =
                  S (length (take k ps))).
    { rewrite (take_drop_middle ps k p Hp), Hb, length_take. f_equal. lia. }
    destruct (pop_prev_repr_split h c (take k ps) p (drop (S k) ps) (take k xs) x (drop (S k) xs)
                pos Hok Hc' Hb' ltac:(rewrite !length_take; lia))
      as (c' & h' & E & Hok' & Hc'' & _).
    exists c', (Some x), h'. split; [done|]. split; [done|]. split; [done|].
    intros k' Hk'. injection Hk' as <-. rewrite !delete_take_drop. done.
Qed.

(** [Drop for LinkedList] on a well-formed list never faults, releases
    every node of the list and leaves every other cell of the heap as it
    was. *)
Theorem drop_releases_nodes {T} (h : heap T) l ps (xs : list T) :
  heap_ok h -> list_repr h l ps xs ->
  exists h', CursorMut.drop l h = inr (tt, h') /\ heap_ok h' /\
    (forall r, r ∈ ps -> cells h' !! r = None) /\
    (forall r, r ∉ ps -> cells h' !! r = cells h !! r).
Proof. apply drop_repr. Qed.

(** [insert x] puts [x] right after the cursor: the elements become those up
    to and including the cursor's, then [x], then the rest; the cursor stays
    on its node with the same offset, [len] grows by one, and [peek] now
    reads [x]. *)
Theorem insert_places_after {T} (h : heap T) c ps (xs : list T) pos (x : T) :
  heap_ok h -> cursor_repr h c ps xs pos ->
  exists c' h' ps',
    CursorMut.insert x c h = inr (c', h') /\ heap_ok h' /\
    cursor_repr h' c' ps' (take (after_index pos) xs ++ x :: drop (after_index pos) xs) pos /\
    CursorMut.current c' = CursorMut.current c /\
    CursorMut.current_len c' = CursorMut.current_len c /\
    len (CursorMut.list c') = S (len (CursorMut.list c)) /\
    CursorMut.peek c' h' = inr (Some x, h').
Proof.
  intros Hok Hc. pose proof Hc as ((_ & Hs & _ & _ & Hlen) & Hp & Hcur).
  pose proof (dseg_length _ _ _ _ _ Hs) as Hlx. pose proof (after_index_le ps pos Hp) as Hk.
  destruct (insert_repr h c ps xs pos x Hok Hc) as (c' & h' & E & Hok' & Hc' & Hcl).
  exists c', h', (take (after_index pos) ps ++ fresh h :: drop (after_index pos) ps). split; [exact E|]. split; [done|]. split; [exact Hc'|].
  pose proof Hc' as ((_ & _ & _ & _ & Hlen') & _ & Hcur').
  split; [|split; [done|split]].
  - rewrite Hcur', Hcur. apply pos_insert_after, Hp.
  - rewrite Hlen', Hlen, length_app. cbn [length]. rewrite length_take, length_drop. lia.
  - rewrite (proj1 (proj2 (cursor_mut_reads_at h' c' _ _ pos Hc'))).
    rewrite list_lookup_middle; [done|]. rewrite length_take. lia.
Qed.

(** [insert_before x] puts [x] right before the cursor (at the end of the
    list from the ghost): the cursor stays on its node, whose index grows by
    one, [len] grows by one, [peek_before] now reads [x], and the offset
    goes through [inc_len]. *)
Theorem insert_before_places_before {T} (h : heap T) c ps (xs : list T) pos (x : T) :
  heap_ok h -> cursor_repr h c ps xs pos ->
  exists c' h' ps',
    CursorMut.insert_before x c h = inr (c', h') /\ heap_ok h' /\
    cursor_repr h' c' ps'
      (take (before_index (length ps) pos) xs ++ x :: drop (before_index (length ps) pos) xs)
      (option_map S pos) /\
    CursorMut.current c' = CursorMut.current c /\
    CursorMut.current_len c' = (CursorMut.current_len c + 1) mod (len (CursorMut.list c) + 2) /\
    len (CursorMut.list c') = S (len (CursorMut.list c)) /\
    CursorMut.peek_before c' h' = inr (Some x, h').
Proof.
  intros Hok Hc. pose proof Hc as ((_ & Hs & _ & _ & Hlen) & Hp & Hcur).
  pose proof (dseg_length _ _ _ _ _ Hs) as Hlx. pose proof (before_index_le ps pos Hp) as Hk.
  destruct (insert_before_repr h c ps xs pos x Hok Hc) as (c' & h' & E & Hok' & Hc' & Hcl & _).
  exists c', h', (take (before_index (length ps) pos) ps ++
                  fresh h :: drop (before_index (length ps) pos) ps). split; [exact E|]. split; [done|]. split; [exact Hc'|].
  pose proof Hc' as ((_ & _ & _ & _ & Hlen') & _ & Hcur').
  assert (Hl' : length (take (before_index (length ps) pos) ps ++
                        fresh h :: drop (before_index (length ps) pos) ps) = S (length ps)).
  { rewrite length_app. cbn [length]. rewrite length_take, length_drop. lia. }
  split; [|split; [by rewrite Hcl, Hlen|split]].
  - rewrite Hcur', Hcur. destruct pos as [i|]; [|done]. cbn [option_map at_pos before_index].
    cbn [before_index] in *. rewrite lookup_app_r; rewrite length_take; [|lia].
    replace (S i - i `min` length ps) with 1 by lia. simpl.
    rewrite lookup_drop. f_equal. lia.
  - by rewrite Hlen', Hlen, Hl'.
  - rewrite (proj2 (proj2 (cursor_mut_reads_at h' c' _ _ _ Hc'))), Hl'.
    replace (before_index (S (length ps)) (option_map S pos))
      with (S (before_index (length ps) pos)) by (by destruct pos).
    rewrite list_lookup_middle; [done|]. rewrite length_take. lia.
Qed.

Lemma demo_cursor_repr :
  cursor_repr demo_heap (CursorMut.mk (Some 2%positive) demo_list 2) demo_ptrs [0; 1; 2] (Some 1).
Proof. split; [exact demo_repr|]. split; [simpl; lia|reflexivity]. Qed.

Lemma debug_prints_elements_witness :
  list_repr demo_heap demo_list demo_ptrs [0; 1; 2] /\
  fmt demo_list demo_heap = inr ([0; 1; 2], demo_heap).
Proof. split; [exact demo_repr|]. apply (debug_prints_elements demo_heap demo_list demo_ptrs). exact demo_repr. Defined.

Lemma from_iter_len_debug_witness :
  heap_ok (@empty_heap nat) /\
  exists l h', from_iter [4; 5] empty_heap = inr (l, h') /\ heap_ok h' /\ len l = 2 /\
    fmt l h' = inr ([4; 5], h').
Proof.
  split; [intros p _; reflexivity|].
  apply (from_iter_len_debug [4; 5] empty_heap). intros p _; reflexivity.
Defined.

Lemma cursor_current_peek_witness :
  list_repr demo_heap demo_list demo_ptrs [0; 1; 2] /\ pos_ok 3 None /\
  Cursor.current_elem (Cursor.mk None demo_list) demo_heap = inr (None, demo_heap) /\
  Cursor.peek (Cursor.mk None demo_list) demo_heap = inr (Some 0, demo_heap) /\
  Cursor.peek_before (Cursor.mk None demo_list) demo_heap = inr (Some 2, demo_heap).
Proof.
  split; [exact demo_repr|]. split; [exact I|].
  apply (cursor_current_peek demo_heap demo_list demo_ptrs [0; 1; 2] None demo_repr I).
Defined.

Lemma cursor_mut_current_peek_witness :
  cursor_repr demo_heap (CursorMut.mk (Some 2%positive) demo_list 2) demo_ptrs [0; 1; 2] (Some 1) /\
  CursorMut.current_elem (CursorMut.mk (Some 2%positive) demo_list 2) demo_heap = inr (Some 1, demo_heap) /\
  CursorMut.peek (CursorMut.mk (Some 2%positive) demo_list 2) demo_heap = inr (Some 2, demo_heap) /\
  CursorMut.peek_before (CursorMut.mk (Some 2%positive) demo_list 2) demo_heap = inr (Some 0, demo_heap) /\
  Cursor.current_elem (CursorMut.as_cursor (CursorMut.mk (Some 2%positive) demo_list 2)) demo_heap =
    CursorMut.current_elem (CursorMut.mk (Some 2%positive) demo_list 2) demo_heap /\
  Cursor.peek (CursorMut.as_cursor (CursorMut.mk (Some 2%positive) demo_list 2)) demo_heap =
    CursorMut.peek (CursorMut.mk (Some 2%positive) demo_list 2) demo_heap /\
  Cursor.peek_before (CursorMut.as_cursor (CursorMut.mk (Some 2%positive) demo_list 2)) demo_heap =
    CursorMut.peek_before (CursorMut.mk (Some 2%positive) demo_list 2) demo_heap.
Proof.
  split; [exact demo_cursor_repr|].
  apply (cursor_mut_current_peek demo_heap _ demo_ptrs [0; 1; 2] (Some 1) demo_cursor_repr).
Defined.

Lemma move_next_prev_inverse_witness :
  cursor_repr demo_heap (CursorMut.mk (Some 2%positive) demo_list 2) demo_ptrs [0; 1; 2] (Some 1) /\
  2 <= len demo_list /\
  (let! c1 := CursorMut.move_next (CursorMut.mk (Some 2%positive) demo_list 2) in
   CursorMut.move_prev c1) demo_heap = inr (CursorMut.mk (Some 2%positive) demo_list 2, demo_heap) /\
  (let! c1 := CursorMut.move_prev (CursorMut.mk (Some 2%positive) demo_list 2) in
   CursorMut.move_next c1) demo_heap = inr (CursorMut.mk (Some 2%positive) demo_list 2, demo_heap).
Proof.
  split; [exact demo_cursor_repr|]. split; [simpl; lia|].
  apply (move_next_prev_inverse demo_heap _ demo_ptrs [0; 1; 2] (Some 1) demo_cursor_repr).
  simpl; lia.
Defined.

Lemma move_next_cycle_witness :
  cursor_repr demo_heap (CursorMut.mk (Some 2%positive) demo_list 2) demo_ptrs [0; 1; 2] (Some 1) /\
  2 <= len demo_list /\
  move_next_n 4 (CursorMut.mk (Some 2%positive) demo_list 2) demo_heap =
    inr (CursorMut.mk (Some 2%positive) demo_list 2, demo_heap).
Proof.
  split; [exact demo_cursor_repr|]. split; [simpl; lia|].
  apply (move_next_cycle demo_heap _ demo_ptrs [0; 1; 2] (Some 1) demo_cursor_repr).
  simpl; lia.
Defined.

Lemma insert_then_pop_witness :
  heap_ok demo_heap /\
  cursor_repr demo_heap (CursorMut.mk (Some 2%positive) demo_list 2) demo_ptrs [0; 1; 2] (Some 1) /\
  2 <= len demo_list /\
  exists h', (let! c1 := CursorMut.insert 9 (CursorMut.mk (Some 2%positive) demo_list 2) in
              CursorMut.pop c1) demo_heap =
               inr ((CursorMut.mk (Some 2%positive) demo_list 2, Some 9), h') /\
    heap_ok h' /\
    cursor_repr h' (CursorMut.mk (Some 2%positive) demo_list 2) demo_ptrs [0; 1; 2] (Some 1).
Proof.
  split; [exact demo_heap_ok|]. split; [exact demo_cursor_repr|]. split; [simpl; lia|].
  apply (insert_then_pop demo_heap _ demo_ptrs [0; 1; 2] (Some 1) 9 demo_heap_ok demo_cursor_repr).
  simpl; lia.
Defined.

Lemma insert_before_then_pop_prev_witness :
  heap_ok demo_heap /\
  cursor_repr demo_heap (cursor_mut demo_list) demo_ptrs [0; 1; 2] None /\
  0 <= len demo_list /\
  exists h', (let! c1 := CursorMut.insert_before 9 (cursor_mut demo_list) in
              CursorMut.pop_prev c1) demo_heap = inr ((cursor_mut demo_list, Some 9), h') /\
    heap_ok h' /\ cursor_repr h' (cursor_mut demo_list) demo_ptrs [0; 1; 2] None.
Proof.
  assert (Hc : cursor_repr demo_heap (cursor_mut demo_list) demo_ptrs [0; 1; 2] None)
    by (apply cursor_mut_repr; exact demo_repr).
  split; [exact demo_heap_ok|]. split; [exact Hc|]. split; [simpl; lia|].
  apply (insert_before_then_pop_prev demo_heap _ demo_ptrs [0; 1; 2] None 9 demo_heap_ok Hc).
  simpl; lia.
Defined.

Lemma pop_prev_general_witness :
  heap_ok demo_heap /\
  cursor_repr demo_heap (CursorMut.mk (Some 2%positive) demo_list 2) demo_ptrs [0; 1; 2] (Some 1) /\
  exists c' r h', CursorMut.pop_prev (CursorMut.mk (Some 2%positive) demo_list 2) demo_heap =
                    inr ((c', r), h') /\
    r = Some 0 /\
    (r = None -> c' = CursorMut.mk (Some 2%positive) demo_list 2 /\ h' = demo_heap) /\
    (forall k, 1 = S k ->
       heap_ok h' /\ cursor_repr h' c' (delete k demo_ptrs) (delete k [0; 1; 2]) (Some 0)).
Proof.
  split; [exact demo_heap_ok|]. split; [exact demo_cursor_repr|].
  apply (pop_prev_general demo_heap _ demo_ptrs [0; 1; 2] (Some 1) demo_heap_ok demo_cursor_repr).
Defined.

Lemma drop_releases_nodes_witness :
  heap_ok demo_heap /\ list_repr demo_heap demo_list demo_ptrs [0; 1; 2] /\
  exists h', CursorMut.drop demo_list demo_heap = inr (tt, h') /\ heap_ok h' /\
    (forall r, r ∈ demo_ptrs -> cells h' !! r = None) /\
    (forall r, r ∉ demo_ptrs -> cells h' !! r = cells demo_heap !! r).
Proof.
  split; [exact demo_heap_ok|]. split; [exact demo_repr|].
  apply (drop_releases_nodes demo_heap demo_list demo_ptrs [0; 1; 2] demo_heap_ok demo_repr).
Defined.

Lemma insert_places_after_witness :
  heap_ok demo_heap /\
  cursor_repr demo_heap (CursorMut.mk (Some 2%positive) demo_list 2) demo_ptrs [0; 1; 2] (Some 1) /\
  exists c' h' ps',
    CursorMut.insert 9 (CursorMut.mk (Some 2%positive) demo_list 2) demo_heap = inr (c', h') /\
    heap_ok h' /\ cursor_repr h' c' ps' [0; 1; 9; 2] (Some 1) /\
    CursorMut.current c' = Some 2%positive /\ CursorMut.current_len c' = 2 /\
    len (CursorMut.list c') = 4 /\ CursorMut.peek c' h' = inr (Some 9, h').
Proof.
  split; [exact demo_heap_ok|]. split; [exact demo_cursor_repr|].
  apply (insert_places_after demo_heap _ demo_ptrs [0; 1; 2] (Some 1) 9 demo_heap_ok demo_cursor_repr).
Defined.

Lemma insert_before_places_before_witness :
  heap_ok demo_heap /\
  cursor_repr demo_heap (CursorMut.mk (Some 2%positive) demo_list 2) demo_ptrs [0; 1; 2] (Some 1) /\
  exists c' h' ps',
    CursorMut.insert_before 9 (CursorMut.mk (Some 2%positive) demo_list 2) demo_heap = inr (c', h') /\
    heap_ok h' /\ cursor_repr h' c' ps' [0; 9; 1; 2] (Some 2) /\
    CursorMut.current c' = Some 2%positive /\ CursorMut.current_len c' = 3 /\
    len (CursorMut.list c') = 4 /\ CursorMut.peek_before c' h' = inr (Some 9, h').
Proof.
  split; [exact demo_heap_ok|]. split; [exact demo_cursor_repr|].
  apply (insert_before_places_before demo_heap _ demo_ptrs [0; 1; 2] (Some 1) 9 demo_heap_ok
           demo_cursor_repr).
Defined.
